(** * Sticker text layout and rendering core of the chat bot (src/index.js)

    Shallow embedding of the text-to-sticker pipeline:
    - [JS]      : the JavaScript string primitives the code relies on
                  ([trim], [split(/\s+/)], [includes], [replace], [startsWith]);
    - [Layout]  : [findOptimalFontSize], the font-size search with greedy
                  line packing (index.js, lines 408-487);
    - [Render]  : [processSVG] and [drawTextWithEmoji] (lines 326-386);
    - [Sticker] : [createSticker] and the [/mkstr] branch of the message
                  handler (lines 190-200 and 389-523).

    JavaScript numbers are idealised as exact rationals ([Q]); font sizes
    are integers ([Z]); strings are sequences of UTF-16 code units. *)

From Stdlib Require Import Ascii String.
From Stdlib Require Import ZArith QArith Qround List Bool Lia Lqa.
From Equations Require Import Equations.
Import ListNotations.

Open Scope Z_scope.

(** ** JavaScript strings *)
Module JS.

(** A JavaScript string is a sequence of UTF-16 code units. *)
Definition jsstring := list N.

(** Literal strings of the source, written as Rocq strings. *)
Fixpoint lit (s : string) : jsstring :=
  match s with
  | EmptyString => []
  | String c r => N_of_ascii c :: lit r
  end.

Definition code_eqb (a b : N) : bool := N.eqb a b.

(** [WhiteSpace] and [LineTerminator] code units of ECMAScript: the class
    [\s] of regular expressions and the characters removed by [trim]. *)
Definition isWhiteSpace (c : N) : bool :=
  (N.leb 9 c && N.leb c 13            (* TAB, LF, VT, FF, CR *)
   || N.eqb c 32                      (* SPACE *)
   || N.eqb c 160                     (* NO-BREAK SPACE *)
   || N.eqb c 5760                    (* OGHAM SPACE MARK *)
   || N.leb 8192 c && N.leb c 8202    (* EN QUAD .. HAIR SPACE *)
   || N.eqb c 8232 || N.eqb c 8233    (* LINE / PARAGRAPH SEPARATOR *)
   || N.eqb c 8239 || N.eqb c 8287    (* NARROW NBSP, MEDIUM MATH SPACE *)
   || N.eqb c 12288                   (* IDEOGRAPHIC SPACE *)
   || N.eqb c 65279)%bool%N.          (* ZERO WIDTH NO-BREAK SPACE *)

(** [s.trimStart()] *)
Fixpoint trimStart (s : jsstring) : jsstring :=
  match s with
  | [] => []
  | c :: r => if isWhiteSpace c then trimStart r else s
  end.

(** [s.trim()] *)
Definition trim (s : jsstring) : jsstring :=
  rev (trimStart (rev (trimStart s))).

(** [s.split(/\s+/)].  [cur] is the reversed text of the piece being read
    and [inSep] tells that the previous code unit belonged to a separator.
    The piece after the last separator is always emitted, so the empty
    string yields an array holding one empty string. *)
Fixpoint splitWsFrom (cur : jsstring) (inSep : bool) (s : jsstring)
  : list jsstring :=
  match s with
  | [] => [rev cur]
  | c :: r =>
      if isWhiteSpace c then
        if inSep then splitWsFrom cur true r
        else rev cur :: splitWsFrom [] true r
      else splitWsFrom (c :: cur) false r
  end.

Definition splitWs (s : jsstring) : list jsstring := splitWsFrom [] false s.

(** [s.startsWith(p)] *)
Fixpoint startsWith (p s : jsstring) : bool :=
  match p, s with
  | [], _ => true
  | _ :: _, [] => false
  | a :: p', b :: s' => code_eqb a b && startsWith p' s'
  end.

(** [s.includes(p)] *)
Fixpoint includes (p s : jsstring) : bool :=
  startsWith p s ||
  match s with
  | [] => false
  | _ :: r => includes p r
  end.

(** [s.replace(p, r)] with a string pattern: only the first occurrence of
    [p] is replaced; a string without occurrence is returned as it is. *)
Fixpoint replace (p r s : jsstring) : jsstring :=
  if startsWith p s then r ++ skipn (length p) s
  else match s with
       | [] => []
       | c :: s' => c :: replace p r s'
       end.

(** [a.join(sep)] *)
Fixpoint join (sep : jsstring) (a : list jsstring) : jsstring :=
  match a with
  | [] => []
  | [x] => x
  | x :: rest => x ++ sep ++ join sep rest
  end.

(** Truthiness of a string: only the empty string is falsy. *)
Definition truthy (s : jsstring) : bool :=
  match s with [] => false | _ :: _ => true end.

(** Decimal digits of a non-negative integer, most significant first,
    computed with [fuel] bounding the number of digits. *)
Fixpoint digitsOf (fuel : nat) (n : Z) (acc : jsstring) : jsstring :=
  match fuel with
  | O => acc
  | S k =>
      let acc' := Z.to_N (48 + n mod 10) :: acc in
      if n <? 10 then acc' else digitsOf k (n / 10) acc'
  end.

(** Template interpolation [${n}] of an integer-valued number. *)
Definition numberToString (n : Z) : jsstring :=
  if n <? 0 then 45%N :: digitsOf (S (Z.to_nat (Z.log2 (- n)))) (- n) []
  else digitsOf (S (Z.to_nat (Z.log2 n))) n [].

End JS.

Import JS.

Open Scope Q_scope.

(** ** The layout solver: [findOptimalFontSize] (index.js, 408-487) *)
Module Layout.

(** Constants of [createSticker] captured by the closure (lines 391-392,
    410-412). *)
Definition canvasWidth : Q := 512.
Definition canvasHeight : Q := 512.
Definition margin : Q := canvasWidth * (5 # 100).
Definition maxWidth : Q := canvasWidth - margin * 2.
Definition maxHeight : Q := canvasHeight - margin * 2.

(** The object returned by [findOptimalFontSize]. *)
Record LayoutSolution := mkSolution {
  fontSize : Z;
  lines : list (list jsstring);
  lineHeight : Q
}.

(** The three variables the packing loops update: [lines], [currentLine]
    and [currentLineWidth]. *)
Record PackState := mkPack {
  pLines : list (list jsstring);
  currentLine : list jsstring;
  currentLineWidth : Q
}.

Definition emptyPack : PackState := mkPack [] [] 0.

(** [currentLine.length === 0] *)
Definition lineIsEmpty (st : PackState) : bool :=
  match currentLine st with [] => true | _ :: _ => false end.

(** [a > b] on numbers. *)
Definition Qgt_bool (a b : Q) : bool := negb (Qle_bool a b).

(** Body of both packing loops (lines 435-442 and 473-480). *)
Definition placeWord (spaceWidth : Q) (st : PackState)
           (word : jsstring) (wordWidth : Q) : PackState :=
  if Qle_bool (currentLineWidth st + wordWidth) maxWidth || lineIsEmpty st
  then mkPack (pLines st) (currentLine st ++ [word])
              (currentLineWidth st + (wordWidth + spaceWidth))
  else mkPack (pLines st ++ [currentLine st]) [word]
              (wordWidth + spaceWidth).

(** [if (currentLine.length > 0) lines.push(currentLine)] (lines 446-448
    and 482-484). *)
Definition pushLastLine (st : PackState) : list (list jsstring) :=
  if lineIsEmpty st then pLines st else pLines st ++ [currentLine st].

Section WithMeasure.

(** [measureText fs s] is [ctx.measureText(s).width] while [ctx.font] is
    the bold face at [fs] pixels. *)
Variable measureText : Z -> jsstring -> Q.

Definition spaceWidthAt (fs : Z) : Q := measureText fs (lit " ").

(** The [for (let word of words)] loop of the search (lines 425-443): the
    boolean is [canFitAllWords], and a word wider than [maxWidth] leaves
    the loop at once. *)
Fixpoint packChecked (fs : Z) (words : list jsstring) (st : PackState)
  : PackState * bool :=
  match words with
  | [] => (st, true)
  | word :: rest =>
      let wordWidth := measureText fs word in
      if Qgt_bool wordWidth maxWidth then (st, false)
      else packChecked fs rest (placeWord (spaceWidthAt fs) st word wordWidth)
  end.

(** The loop of the fallback (lines 470-481), which has no such test. *)
Fixpoint packForced (fs : Z) (words : list jsstring) (st : PackState)
  : PackState :=
  match words with
  | [] => st
  | word :: rest =>
      let wordWidth := measureText fs word in
      packForced fs rest (placeWord (spaceWidthAt fs) st word wordWidth)
  end.

(** One iteration of the [while] loop up to its [return] (lines 415-457):
    [Some] is the returned object, [None] means the size is given up. *)
Definition tryFontSize (words : list jsstring) (fs : Z)
  : option LayoutSolution :=
  let '(st, canFitAllWords) := packChecked fs words emptyPack in
  let lines := pushLastLine st in
  let lineHeight := inject_Z fs * (12 # 10) in
  let totalHeight := inject_Z (Z.of_nat (length lines)) * lineHeight in
  if canFitAllWords && Qle_bool totalHeight maxHeight
  then Some (mkSolution fs lines lineHeight)
  else None.

(** Lines 463-486. *)
Definition fallbackLayout (words : list jsstring) : LayoutSolution :=
  mkSolution 10 (pushLastLine (packForced 10 words emptyPack)) 12.

(** Result of the search together with the sizes assigned to [ctx.font]
    at line 415, in the order of assignment. *)
Record SearchResult := mkSearch {
  solution : LayoutSolution;
  tried : list Z
}.

(** [while (fontSize > 10) { ... fontSize -= 2 }] followed by the
    fallback.  The loop ends because [fontSize - 10] decreases. *)
Equations? searchFrom (words : list jsstring) (fontSize : Z)
  : SearchResult by wf (Z.to_nat (fontSize - 10)) lt :=
  searchFrom words fontSize with Z_gt_dec fontSize 10 => {
    | left _ with tryFontSize words fontSize => {
        | Some sol := mkSearch sol [fontSize];
        | None :=
            let r := searchFrom words (fontSize - 2) in
            mkSearch (solution r) (fontSize :: tried r) };
    | right _ := mkSearch (fallbackLayout words) [] }.
Proof. lia. Qed.

Definition findOptimalFontSize (words : list jsstring) : LayoutSolution :=
  solution (searchFrom words 120).

End WithMeasure.

End Layout.

Import Layout.

(** ** The line renderer: [processSVG] and [drawTextWithEmoji] *)
Module Render.

(** The double quote, U+0022. *)
Definition dquote : N := 34%N.

(** The template literal of line 331: the opening tag with [width] and
    [height] both set to [size], each value between double quotes. *)
Definition svgOpenTag (size : Z) : jsstring :=
  lit "<svg width=" ++ [dquote] ++ numberToString size ++ [dquote] ++
  lit " height=" ++ [dquote] ++ numberToString size ++ [dquote].

(** [processSVG] (lines 326-335). *)
Definition processSVG (svgString : jsstring) (size : Z) : jsstring :=
  if negb (includes (lit "width=") svgString)
     && negb (includes (lit "height=") svgString)
  then replace (lit "<svg") (svgOpenTag size) svgString
  else svgString.

(** The longest prefix without double quote, and what follows it. *)
Fixpoint spanNoQuote (s : jsstring) : jsstring * jsstring :=
  match s with
  | [] => ([], [])
  | c :: r =>
      if code_eqb c dquote then ([], s)
      else let '(run, rest) := spanNoQuote r in (c :: run, rest)
  end.

(** The [part.match] of line 346, whose pattern is [src=], a double
    quote, one or more code units other than a double quote (the capture
    group) and a double quote: the group of the leftmost match, if any. *)
Fixpoint matchSrc (s : jsstring) : option jsstring :=
  let here :=
    if startsWith (lit "src=" ++ [dquote]) s then
      match spanNoQuote (skipn 5 s) with
      | ((_ :: _) as url, q :: _) => if code_eqb q dquote then Some url else None
      | _ => None
      end
    else None in
  match here with
  | Some url => Some url
  | None => match s with
            | [] => None
            | _ :: r => matchSrc r
            end
  end.

(** [ctx.font]: the default face of a fresh context, or the bold narrow
    face of lines 371, 377 and 415 at some pixel size. *)
Inductive Font :=
| DefaultFont
| BoldNarrow (px : Z).

(** A decoded image, as [loadImage] returns it. *)
Record Image := mkImage { source : jsstring }.

(** Calls that paint on the canvas. *)
Inductive DrawOp :=
| FillRect (x y w h : Q) (style : jsstring)
| FillText (text : jsstring) (x y : Q) (font : Font) (style : jsstring)
| DrawImage (img : Image) (x y w h : Q).

(** The 2D context: its properties and the paint calls received so far,
    oldest first. *)
Record Ctx := mkCtx {
  font : Font;
  fillStyle : jsstring;
  textAlign : jsstring;
  textBaseline : jsstring;
  ops : list DrawOp
}.

Definition setFont (f : Font) (c : Ctx) : Ctx :=
  mkCtx f (fillStyle c) (textAlign c) (textBaseline c) (ops c).
Definition setFillStyle (v : jsstring) (c : Ctx) : Ctx :=
  mkCtx (font c) v (textAlign c) (textBaseline c) (ops c).
Definition setTextAlign (v : jsstring) (c : Ctx) : Ctx :=
  mkCtx (font c) (fillStyle c) v (textBaseline c) (ops c).
Definition setTextBaseline (v : jsstring) (c : Ctx) : Ctx :=
  mkCtx (font c) (fillStyle c) (textAlign c) v (ops c).
Definition paint (op : DrawOp) (c : Ctx) : Ctx :=
  mkCtx (font c) (fillStyle c) (textAlign c) (textBaseline c) (ops c ++ [op]).

Definition fillRect (x y w h : Q) (c : Ctx) : Ctx :=
  paint (FillRect x y w h (fillStyle c)) c.
Definition fillText (t : jsstring) (x y : Q) (c : Ctx) : Ctx :=
  paint (FillText t x y (font c) (fillStyle c)) c.
Definition drawImage (img : Image) (x y w h : Q) (c : Ctx) : Ctx :=
  paint (DrawImage img x y w h) c.

(** [Math.round] *)
Definition mathRound (x : Q) : Z := Qfloor (x + (1 # 2)).

(** The placeholder drawn when a glyph cannot be loaded: U+25A1. *)
Definition placeholderBox : jsstring := [9633%N].

Section WithEnvironment.

Variable measureText : Z -> jsstring -> Q.

(** [twemoji.parse(text, ...)] followed by [split(/(<img.*?>)/g)] and
    [filter(Boolean)]: the parts of a line, in order. *)
Variable parseParts : jsstring -> list jsstring.

(** [fetchFn(url)] followed by [res.text()]; [None] when either throws. *)
Variable fetchText : jsstring -> option jsstring.

(** [loadImage(Buffer.from(svg))]; [None] when it throws. *)
Variable loadImage : jsstring -> option Image.

(** The [try] block up to [loadImage] (lines 350-362). *)
Definition loadGlyph (url : jsstring) (emojiSize : Z) : option Image :=
  match fetchText url with
  | None => None
  | Some svgString => loadImage (processSVG svgString emojiSize)
  end.

(** Body of the [for (let part of parts)] loop (lines 345-382). *)
Definition drawPart (y : Q) (fontSize : Z) (st : Ctx * Q) (part : jsstring)
  : Ctx * Q :=
  let '(ctx, cursorX) := st in
  if startsWith (lit "<img") part then
    match matchSrc part with
    | Some url =>
        let emojiSize := mathRound (inject_Z fontSize * (9 # 10)) in
        match loadGlyph url emojiSize with
        | Some img =>
            let emojiY := y - inject_Z fontSize * (7 # 10) in
            (drawImage img cursorX emojiY
                       (inject_Z emojiSize) (inject_Z emojiSize) ctx,
             cursorX + inject_Z emojiSize * (8 # 10))
        | None =>
            (fillText placeholderBox cursorX y
                      (setFont (BoldNarrow fontSize) ctx),
             cursorX + inject_Z fontSize * (8 # 10))
        end
    | None => (ctx, cursorX)
    end
  else
    let ctx1 := setTextBaseline (lit "alphabetic")
                  (setFillStyle (lit "#000")
                     (setFont (BoldNarrow fontSize) ctx)) in
    (fillText part cursorX y ctx1, cursorX + measureText fontSize part).

(** The loop over the parts, from a given context and cursor. *)
Definition drawParts (y : Q) (fontSize : Z) (parts : list jsstring)
           (st : Ctx * Q) : Ctx * Q :=
  fold_left (drawPart y fontSize) parts st.

(** [drawTextWithEmoji] (lines 339-386): the context after the call and
    the returned [cursorX]. *)
Definition drawTextWithEmoji (ctx : Ctx) (text : jsstring) (x y : Q)
           (fontSize : Z) : Ctx * Q :=
  drawParts y fontSize (parseParts text) (ctx, x).

End WithEnvironment.

End Render.

Import Render.

(** ** The compositor [createSticker] and the [/mkstr] command *)
Module Sticker.

(** What a call of [createSticker] does. *)
Inductive Outcome :=
| NoOp (ctx : Ctx)
    (** the [return] of line 405 *)
| StickerSent (sol : LayoutSolution) (ctx : Ctx) (webp : list N)
    (** the sticker message of lines 513-516 *)
| GenerationFailed.
    (** the [catch] of lines 519-522 *)

(** The context of a fresh canvas. *)
Definition freshCtx : Ctx :=
  mkCtx DefaultFont (lit "#000000") (lit "start") (lit "alphabetic") [].

(** [isReply]: the quoted message of a reply. *)
Record Quoted := mkQuoted {
  conversation : option jsstring;
  extendedText : option jsstring
}.

(** [a || b] where [a] may be undefined. *)
Definition orElse (a : option jsstring) (b : option jsstring)
  : option jsstring :=
  match a with
  | Some s => if truthy s then a else b
  | None => b
  end.

(** What the [/mkstr] branch does. *)
Inductive MkstrAction :=
| CallCreateSticker (stickerText : jsstring)
| SendUsage.

(** Lines 191-200, for a [text] that starts with [/mkstr]. *)
Definition mkstrBranch (text : jsstring) (isReply : option Quoted)
  : MkstrAction :=
  let stickerText := trim (replace (lit "/mkstr") [] text) in
  let stickerText :=
    match isReply with
    | Some q =>
        if negb (truthy stickerText) then
          let quotedMsg := orElse (conversation q) (extendedText q) in
          match orElse quotedMsg (Some (lit "Teks kosong")) with
          | Some s => s
          | None => []
          end
        else stickerText
    | None => stickerText
    end in
  if truthy stickerText then CallCreateSticker stickerText else SendUsage.

Section WithEnvironment.

Variable measureText : Z -> jsstring -> Q.
Variable parseParts : jsstring -> list jsstring.
Variable fetchText : jsstring -> option jsstring.
Variable loadImage : jsstring -> option Image.

(** [canvas.toBuffer] followed by the [sharp] pipeline of
    lines 508-511; [None] when either throws. *)
Variable encodeWebp : Ctx -> option (list N).

(** The rendering loop of lines 495-505, from line index [i]. *)
Fixpoint renderLines (fontSize : Z) (lineHeight : Q) (startY : Q)
         (i : nat) (ls : list (list jsstring)) (ctx : Ctx) : Ctx :=
  match ls with
  | [] => ctx
  | line :: rest =>
      let lineText := join (lit " ") line in
      let x := margin in
      let y := startY + inject_Z (Z.of_nat i) * lineHeight in
      let '(ctx', _) :=
        drawTextWithEmoji measureText parseParts fetchText loadImage
                          ctx lineText x y fontSize in
      renderLines fontSize lineHeight startY (S i) rest ctx'
  end.

(** [createSticker] (lines 389-523). *)
Definition createSticker (text : jsstring) : Outcome :=
  let ctx := setFillStyle (lit "#fff") freshCtx in
  let ctx := fillRect 0 0 canvasWidth canvasHeight ctx in
  let ctx := setFillStyle (lit "#000") ctx in
  let ctx := setTextAlign (lit "left") ctx in
  let ctx := setTextBaseline (lit "alphabetic") ctx in
  let words := splitWs (trim text) in
  if (length words =? 0)%nat then NoOp ctx
  else
    let sol := findOptimalFontSize measureText words in
    (* the face last assigned by the search (line 415 or 464) is the
       bold face at the returned size *)
    let ctx := setFont (BoldNarrow (fontSize sol)) ctx in
    let startY := margin + inject_Z (fontSize sol) in
    let ctx := renderLines (fontSize sol) (lineHeight sol) startY 0
                           (lines sol) ctx in
    match encodeWebp ctx with
    | Some webp => StickerSent sol ctx webp
    | None => GenerationFailed
    end.

(** The [/mkstr] command end to end: [None] stands for the usage message
    of line 199. *)
Definition handleMkstr (text : jsstring) (isReply : option Quoted)
  : option Outcome :=
  match mkstrBranch text isReply with
  | CallCreateSticker stickerText => Some (createSticker stickerText)
  | SendUsage => None
  end.

End WithEnvironment.

End Sticker.

Import Sticker.

(** ** The chat completion client: [chatWithAI], [testGroqConnection] *)
Module Assistant.

(** What the request of lines 61-92 comes to. *)
Inductive ApiReply :=
| Thrown (message : jsstring)
    (** [fetchFn] or [response.json()] throws an error with this message *)
| HttpError (status : Z) (errorText : jsstring)
    (** [response.ok] is false *)
| Unrecognized
    (** the body has no [choices[0].message] *)
| Message (content : option jsstring).
    (** the body has one; [None] is a [content] that is null or absent *)

Definition formatError : jsstring :=
  lit "Maaf, saya mengalami kesalahan dalam memproses permintaan Anda.".
Definition invalidKey : jsstring :=
  lit "Maaf, API key Groq tidak valid. Silakan periksa konfigurasi.".
Definition rateLimited : jsstring :=
  lit "Maaf, rate limit telah tercapai. Silakan coba lagi nanti.".
Definition serverError : jsstring :=
  lit "Maaf, server Groq sedang mengalami masalah. Silakan coba lagi nanti.".
Definition decommissioned : jsstring :=
  lit "Maaf, model AI yang digunakan telah didepresiasi. Silakan hubungi administrator untuk update.".
Definition connectionError : jsstring :=
  lit "Maaf, terjadi kesalahan koneksi ke AI service. Silakan coba lagi.".

Section WithCaseMapping.

(** [String.prototype.toLowerCase] *)
Variable toLowerCase : jsstring -> jsstring.

(** The [catch] block of lines 100-115. *)
Definition explainError (message : jsstring) : jsstring :=
  let errorMsg := toLowerCase message in
  if includes (lit "401") errorMsg then invalidKey
  else if includes (lit "429") errorMsg then rateLimited
  else if includes (lit "500") errorMsg then serverError
  else if includes (lit "model_decommissioned") errorMsg then decommissioned
  else connectionError.

(** [chatWithAI] (lines 57-116): the returned value, [None] for null. *)
Definition chatWithAI (reply : ApiReply) : option jsstring :=
  match reply with
  | Thrown message => Some (explainError message)
  | HttpError status errorText =>
      Some (explainError
              (lit "HTTP " ++ numberToString status ++ lit ": " ++ errorText))
  | Unrecognized => Some formatError
  | Message content => content
  end.

(** [testGroqConnection] (lines 119-134). *)
Definition testGroqConnection (reply : ApiReply) : bool :=
  match chatWithAI reply with
  | Some testResponse =>
      truthy testResponse && negb (includes (lit "Maaf") testResponse)
  | None => false
  end.

End WithCaseMapping.

End Assistant.

Import Assistant.

(** ** The commands [/msg] and [/ayat] of the message handler *)
Module Commands.

(** What the [/msg] branch does. *)
Inductive MsgAction :=
| Unavailable
    (** the notice of lines 236-244 *)
| AskAI (aiPrompt : jsstring)
    (** the call of line 266 *)
| SendHelp.
    (** the instructions of lines 284-292 *)

(** [replyText] (line 160). *)
Definition replyTextOf (isReply : option Quoted) : option jsstring :=
  match isReply with
  | Some q => orElse (conversation q) (extendedText q)
  | None => None
  end.

(** Lines 233-293, for a [text] that starts with [/msg]. *)
Definition msgBranch (groqTest : bool) (text : jsstring)
           (isReply : option Quoted) : MsgAction :=
  if negb groqTest then Unavailable
  else
    let aiPrompt := trim (replace (lit "/msg") [] text) in
    let aiPrompt :=
      match isReply, replyTextOf isReply with
      | Some _, Some replyText =>
          if truthy replyText then
            if truthy aiPrompt then replyText ++ lit " " ++ aiPrompt
            else replyText
          else aiPrompt
      | _, _ => aiPrompt
      end in
    if truthy aiPrompt then AskAI aiPrompt else SendHelp.

(** The list of line 205. *)
Definition versesList : list jsstring :=
  [lit "John 3:16"; lit "Psalm 23:1"; lit "Philippians 4:13";
   lit "Jeremiah 29:11"; lit "Psalm 119:105"; lit "Romans 8:28";
   lit "Proverbs 3:5-6"; lit "Matthew 6:33"; lit "Isaiah 41:10";
   lit "Romans 12:2"].

(** Milliseconds in a day (line 215). *)
Definition oneDay : Z := 1000 * 60 * 60 * 24.

(** [Math.floor(diff / oneDay)], for [diff] in milliseconds. *)
Definition dayOfYear (diff : Z) : Z := (diff / oneDay)%Z.

(** [a[i]] for an integer [i]: undefined outside of the array. *)
Definition arrayGet {A} (a : list A) (i : Z) : option A :=
  if (i <? 0)%Z then None else nth_error a (Z.to_nat i).

(** [versesList[dayOfYear % versesList.length]] (line 219); the remainder
    of JavaScript has the sign of the dividend. *)
Definition dailyVerse (diff : Z) : option jsstring :=
  arrayGet versesList
           (Z.rem (dayOfYear diff) (Z.of_nat (length versesList))).

End Commands.

Import Commands.

(** ** Sample environment used to run the definitions *)

(** Every code unit is half as wide as the font is tall. *)
Definition sampleMeasure (fs : Z) (s : jsstring) : Q :=
  inject_Z fs * inject_Z (Z.of_nat (length s)) * (1 # 2).

(** A line without emoji is one text part; an empty line has no part. *)
Definition plainParts (s : jsstring) : list jsstring :=
  if truthy s then [s] else [].

(** The image part [twemoji] writes for an emoji. *)
Definition sampleImgPart : jsstring :=
  lit "<img class=emoji src=" ++ [dquote] ++
  lit "https://cdn.example/svg/1f600.svg" ++ [dquote] ++ lit "/>".

(** A line of three parts: text, emoji, text. *)
Definition threeParts (_ : jsstring) : list jsstring :=
  [lit "Hi "; sampleImgPart; lit " you"].

(** A network on which every fetch fails, a decoder and an encoder that
    always succeed. *)
Definition fetchFails (_ : jsstring) : option jsstring := None.
Definition decodeAny (svg : jsstring) : option Image := Some (mkImage svg).
Definition encodeAny (_ : Ctx) : option (list N) := Some [].

(** A line that is one emoji. *)
Definition onlyEmoji (_ : jsstring) : list jsstring := [sampleImgPart].

(** A measurement that reports negative widths. *)
Definition negativeMeasure (fs : Z) (s : jsstring) : Q :=
  - inject_Z (Z.of_nat (length s)).

(** A word of one hundred letters. *)
Definition longWord : jsstring := repeat 97%N 100.

(** The body of an error response: no [<svg] tag at all. *)
Definition notFoundBody : jsstring := lit "Not Found".

(** A markup string whose root element has a [width] and no [height]. *)
Definition widthOnlySvg : jsstring :=
  lit "<svg width=" ++ [dquote] ++ lit "36" ++ [dquote] ++
  lit " viewBox=" ++ [dquote] ++ lit "0 0 36 36" ++ [dquote] ++
  lit "></svg>".

(** ** Vocabulary of the specification *)

(** The margin fraction of the render request. *)
Definition marginFraction : Q := 5 # 100.

(** Usable width and height: the canvas dimension minus both margins. *)
Definition usableWidth : Q := canvasWidth * (1 - 2 * marginFraction).
Definition usableHeight : Q := canvasHeight * (1 - 2 * marginFraction).

(** The candidate sizes [from], [from - 2], ... ([n] of them). *)
Definition descending (from : Z) (n : nat) : list Z :=
  map (fun j => (from - 2 * Z.of_nat j)%Z) (seq 0 n).

Section LayoutVocabulary.

Variable measureText : Z -> jsstring -> Q.

(** The lines the greedy packing builds from [words] at size [fs]. *)
Definition greedyLines (fs : Z) (words : list jsstring)
  : list (list jsstring) :=
  pushLastLine (packForced measureText fs words emptyPack).

(** All words pack at size [fs] (none is wider than the usable width) and
    the block of lines is at most as high as the usable height. *)
Definition fitsAt (fs : Z) (words : list jsstring) : Prop :=
  (forall w, In w words -> measureText fs w <= usableWidth) /\
  inject_Z (Z.of_nat (length (greedyLines fs words)))
    * (inject_Z fs * (12 # 10)) <= usableHeight.

End LayoutVocabulary.

(** A markup string holds explicit sizing when both attribute names occur
    in it, the test [processSVG] itself applies. *)
Definition hasExplicitSize (svg : jsstring) : bool :=
  includes (lit "width=") svg && includes (lit "height=") svg.

(** What a paint call draws at, from the left. *)
Definition opX (op : DrawOp) : Q :=
  match op with
  | FillRect x _ _ _ _ => x
  | FillText _ x _ _ _ => x
  | DrawImage _ x _ _ _ => x
  end.

(** The text of a [fillText] call. *)
Definition opText (op : DrawOp) : option jsstring :=
  match op with
  | FillText t _ _ _ _ => Some t
  | _ => None
  end.

Definition isFillRect (op : DrawOp) : bool :=
  match op with FillRect _ _ _ _ _ => true | _ => false end.

(** A string without whitespace. *)
Definition noWhiteSpace (s : jsstring) : Prop :=
  forallb (fun c => negb (isWhiteSpace c)) s = true.

(** A string without double quote. *)
Definition noQuote (s : jsstring) : Prop :=
  forallb (fun c => negb (code_eqb c dquote)) s = true.

Section WidthVocabulary.

Variable measureText : Z -> jsstring -> Q.

(** The width the packing loop has accumulated for a line: each word
    followed by one space. *)
Definition accumulatedWidth (fs : Z) (line : list jsstring) : Q :=
  fold_right (fun w acc => measureText fs w + spaceWidthAt measureText fs + acc)
             0 line.

(** The width of a line as drawn: its words with one space between
    neighbours. *)
Definition packedWidth (fs : Z) (line : list jsstring) : Q :=
  accumulatedWidth fs line - spaceWidthAt measureText fs.

(** Every line break was forced: the first word of a line did not fit
    behind the accumulated width of the line before. *)
Fixpoint breaksForced (fs : Z) (ls : list (list jsstring)) : Prop :=
  match ls with
  | [] => True
  | l1 :: rest =>
      match rest with
      | (w :: _) :: _ =>
          usableWidth < accumulatedWidth fs l1 + measureText fs w
      | _ => True
      end /\ breaksForced fs rest
  end.

(** A line of one word, or one that is not wider than the usable width. *)
Definition okLine (fs : Z) (l : list jsstring) : Prop :=
  (exists w, l = [w]) \/ packedWidth fs l <= usableWidth.

(** What the packing loop keeps about widths: [currentLineWidth] is the
    accumulated width of [currentLine], and the lines are [okLine]. *)
Definition widthsKept (fs : Z) (st : PackState) : Prop :=
  currentLineWidth st == accumulatedWidth fs (currentLine st) /\
  Forall (okLine fs) (pLines st) /\
  (currentLine st = [] \/ okLine fs (currentLine st)).

(** What the packing loop keeps about line breaks. *)
Definition breaksKept (fs : Z) (st : PackState) : Prop :=
  currentLineWidth st == accumulatedWidth fs (currentLine st) /\
  breaksForced fs (pLines st ++ [currentLine st]) /\
  (currentLine st = [] -> pLines st = []).

(** Inside a line every word after the first was appended because it
    fitted: the accumulated width of the words before it plus its own
    width is at most the usable width. *)
Definition appendsFit (fs : Z) (l : list jsstring) : Prop :=
  forall pre w post,
    l = pre ++ w :: post -> pre <> [] ->
    accumulatedWidth fs pre + measureText fs w <= usableWidth.

(** The greedy layout of [words] at size [fs], said without the loop: the
    lines hold the words in order, none is empty, a word stands behind
    others on a line only where it fitted, and a line ends only where the
    next word did not fit. *)
Definition greedyLayout (fs : Z) (words : list jsstring)
           (ls : list (list jsstring)) : Prop :=
  concat ls = words /\
  Forall (fun l => l <> []) ls /\
  Forall (appendsFit fs) ls /\
  breaksForced fs ls.

(** What the packing loop keeps about the words inside the lines. *)
Definition appendsKept (fs : Z) (st : PackState) : Prop :=
  currentLineWidth st == accumulatedWidth fs (currentLine st) /\
  appendsFit fs (currentLine st) /\
  Forall (appendsFit fs) (pLines st).

(** The summed widths of the parts of a line. *)
Definition partsWidth (fs : Z) (parts : list jsstring) : Q :=
  fold_right (fun p acc => measureText fs p + acc) 0 parts.

End WidthVocabulary.

(** The context with another list of paint calls. *)
Definition withOps (c : Ctx) (l : list DrawOp) : Ctx :=
  mkCtx (font c) (fillStyle c) (textAlign c) (textBaseline c) l.

(** The settings [createSticker] has made when it renders the lines: the
    bold face at the chosen size, black fill, left alignment, alphabetic
    baseline; no paint call yet. *)
Definition textCtx (fs : Z) : Ctx :=
  mkCtx (BoldNarrow fs) (lit "#000") (lit "left") (lit "alphabetic") [].

(** A context in which the text settings of the renderer are in force. *)
Definition settled (fs : Z) (c : Ctx) : Prop :=
  font c = BoldNarrow fs /\ fillStyle c = lit "#000" /\
  textBaseline c = lit "alphabetic".

Section SegmentVocabulary.

Variable measureText : Z -> jsstring -> Q.
Variable parseParts : jsstring -> list jsstring.
Variable fetchText : jsstring -> option jsstring.
Variable loadImage : jsstring -> option Image.

(** What rendering one segment of a line does to the paint calls, the
    fill style and the cursor, segment kind by segment kind. *)
Inductive segmentDrawn (fs : Z) (y : Q) (before : Ctx * Q) (q : jsstring)
          (after : Ctx * Q) : Prop :=
| textRun :
    startsWith (lit "<img") q = false ->
    ops (fst after)
    = ops (fst before) ++
      [FillText q (snd before) y (BoldNarrow fs) (lit "#000")] ->
    fillStyle (fst after) = lit "#000" ->
    snd after = snd before + measureText fs q ->
    segmentDrawn fs y before q after
| glyphRun (url svg : jsstring) (img : Image) :
    startsWith (lit "<img") q = true ->
    matchSrc q = Some url ->
    fetchText url = Some svg ->
    loadImage (processSVG svg (mathRound (inject_Z fs * (9 # 10))))
    = Some img ->
    ops (fst after)
    = ops (fst before) ++
      [DrawImage img (snd before) (y - inject_Z fs * (7 # 10))
                 (inject_Z (mathRound (inject_Z fs * (9 # 10))))
                 (inject_Z (mathRound (inject_Z fs * (9 # 10))))] ->
    fillStyle (fst after) = fillStyle (fst before) ->
    snd after
    = snd before + inject_Z (mathRound (inject_Z fs * (9 # 10))) * (8 # 10) ->
    segmentDrawn fs y before q after
| glyphFailed (url : jsstring) :
    startsWith (lit "<img") q = true ->
    matchSrc q = Some url ->
    loadGlyph fetchText loadImage url (mathRound (inject_Z fs * (9 # 10)))
    = None ->
    ops (fst after)
    = ops (fst before) ++
      [FillText placeholderBox (snd before) y (BoldNarrow fs)
                (fillStyle (fst before))] ->
    fillStyle (fst after) = fillStyle (fst before) ->
    snd after = snd before + inject_Z fs * (8 # 10) ->
    segmentDrawn fs y before q after
| noSource :
    startsWith (lit "<img") q = true ->
    matchSrc q = None ->
    ops (fst after) = ops (fst before) ->
    fillStyle (fst after) = fillStyle (fst before) ->
    snd after = snd before ->
    segmentDrawn fs y before q after.

(** The segments of a list rendered one after the other, each from the
    canvas and the cursor the one before has left. *)
Inductive segmentsDrawn (fs : Z) (y : Q)
  : Ctx * Q -> list jsstring -> Ctx * Q -> Prop :=
| noSegment st : segmentsDrawn fs y st [] st
| nextSegment st q st1 rest st2 :
    segmentDrawn fs y st q st1 ->
    segmentsDrawn fs y st1 rest st2 ->
    segmentsDrawn fs y st (q :: rest) st2.

(** The paint calls of the lines of a layout, from line index [i] on:
    those [drawTextWithEmoji] makes for each line, joined with spaces, at
    the left margin and on the baseline of the line. *)
Fixpoint linesOps (fs : Z) (lh startY : Q) (i : nat)
         (ls : list (list jsstring)) : list DrawOp :=
  match ls with
  | [] => []
  | line :: rest =>
      ops (fst (drawTextWithEmoji measureText parseParts fetchText loadImage
                  (textCtx fs) (join (lit " ") line) margin
                  (startY + inject_Z (Z.of_nat i) * lh) fs))
      ++ linesOps fs lh startY (S i) rest
  end.

End SegmentVocabulary.

(** ASCII lowercasing, as [toLowerCase] acts on code units below 128. *)
Definition asciiLower (s : jsstring) : jsstring :=
  map (fun c => if (N.leb 65 c && N.leb c 90)%bool then (c + 32)%N else c) s.

(** * Properties *)

(** ** Numbers *)

Lemma maxWidth_usable : maxWidth == usableWidth.
Proof. reflexivity. Qed.

Lemma maxHeight_usable : maxHeight == usableHeight.
Proof. reflexivity. Qed.

Lemma Qgt_bool_iff (a b : Q) : Qgt_bool a b = true <-> b < a.
Proof.
  unfold Qgt_bool. rewrite negb_true_iff. split.
  - intros H. apply Qnot_le_lt. intros Hle.
    apply Qle_bool_iff in Hle. congruence.
  - intros H. destruct (Qle_bool a b) eqn:E; [|reflexivity].
    apply Qle_bool_iff in E. exfalso. exact (Qlt_not_le _ _ H E).
Qed.

Lemma Qgt_bool_false_iff (a b : Q) : Qgt_bool a b = false <-> a <= b.
Proof.
  unfold Qgt_bool. rewrite negb_false_iff. apply Qle_bool_iff.
Qed.

(** ** The packing loops *)
Section PackingFacts.

Variable measureText : Z -> jsstring -> Q.

Lemma packChecked_fits fs ws st :
  (forall w, In w ws -> measureText fs w <= maxWidth) ->
  packChecked measureText fs ws st = (packForced measureText fs ws st, true).
Proof.
  revert st. induction ws as [|w ws IH]; intros st Hfit; simpl.
  - reflexivity.
  - assert (Hw : Qgt_bool (measureText fs w) maxWidth = false).
    { apply Qgt_bool_false_iff. apply Hfit. now left. }
    rewrite Hw. apply IH. intros w' Hin. apply Hfit. now right.
Qed.

Lemma packChecked_oversized fs ws st :
  (exists w, In w ws /\ maxWidth < measureText fs w) ->
  snd (packChecked measureText fs ws st) = false.
Proof.
  revert st. induction ws as [|w ws IH]; intros st [w' [Hin Hbig]].
  - destruct Hin.
  - simpl. destruct (Qgt_bool (measureText fs w) maxWidth) eqn:E.
    + reflexivity.
    + destruct Hin as [->|Hin].
      * apply Qgt_bool_iff in Hbig. congruence.
      * apply IH. exists w'. split; assumption.
Qed.

Lemma packChecked_true fs ws st st' :
  packChecked measureText fs ws st = (st', true) ->
  (forall w, In w ws -> measureText fs w <= maxWidth) /\
  st' = packForced measureText fs ws st.
Proof.
  revert st. induction ws as [|w ws IH]; intros st H; simpl in H.
  - split; [intros w []|]. now inversion H.
  - destruct (Qgt_bool (measureText fs w) maxWidth) eqn:E; [discriminate|].
    apply IH in H as [Hfit ->]. split; [|reflexivity].
    intros w' [<-|Hin]; [now apply Qgt_bool_false_iff | now apply Hfit].
Qed.

Lemma pushLastLine_concat st :
  concat (pushLastLine st) = concat (pLines st) ++ currentLine st.
Proof.
  unfold pushLastLine, lineIsEmpty.
  destruct (currentLine st) as [|w l].
  - now rewrite app_nil_r.
  - rewrite concat_app. simpl. now rewrite app_nil_r.
Qed.

Lemma placeWord_concat sw st w ww :
  concat (pLines (placeWord sw st w ww)) ++ currentLine (placeWord sw st w ww)
  = concat (pLines st) ++ currentLine st ++ [w].
Proof.
  unfold placeWord.
  destruct (Qle_bool (currentLineWidth st + ww) maxWidth || lineIsEmpty st);
    simpl.
  - reflexivity.
  - rewrite concat_app. simpl. rewrite app_nil_r. now rewrite <- app_assoc.
Qed.

Lemma packForced_concat fs ws st :
  concat (pushLastLine (packForced measureText fs ws st))
  = concat (pLines st) ++ currentLine st ++ ws.
Proof.
  revert st. induction ws as [|w ws IH]; intros st; simpl.
  - rewrite pushLastLine_concat. now rewrite app_nil_r.
  - rewrite IH. rewrite app_assoc. rewrite placeWord_concat.
    rewrite <- !app_assoc. reflexivity.
Qed.

Lemma packForced_snoc fs ws w st :
  packForced measureText fs (ws ++ [w]) st
  = placeWord (spaceWidthAt measureText fs)
              (packForced measureText fs ws st) w (measureText fs w).
Proof.
  revert st. induction ws as [|w' ws IH]; intros st; simpl.
  - reflexivity.
  - apply IH.
Qed.

Lemma greedyLines_concat fs words :
  concat (greedyLines measureText fs words) = words.
Proof.
  unfold greedyLines. rewrite packForced_concat. reflexivity.
Qed.

(** ** One candidate size *)

Lemma tryFontSize_Some words fs sol :
  tryFontSize measureText words fs = Some sol <->
  fitsAt measureText fs words /\
  sol = mkSolution fs (greedyLines measureText fs words)
                   (inject_Z fs * (12 # 10)).
Proof.
  unfold tryFontSize, fitsAt. split.
  - destruct (packChecked measureText fs words emptyPack) as [st ok] eqn:E.
    destruct ok; simpl; [|discriminate].
    apply packChecked_true in E as [Hfit ->].
    destruct (Qle_bool _ maxHeight) eqn:Hh; [|discriminate].
    intros H. inversion H; subst; clear H. split; [split|reflexivity].
    + intros w Hin. rewrite <- maxWidth_usable. now apply Hfit.
    + rewrite <- maxHeight_usable. now apply Qle_bool_iff.
  - intros [[Hfit Hh] ->].
    rewrite packChecked_fits.
    2:{ intros w Hin. rewrite maxWidth_usable. now apply Hfit. }
    simpl. rewrite <- maxHeight_usable in Hh.
    apply Qle_bool_iff in Hh. unfold greedyLines in Hh. rewrite Hh.
    reflexivity.
Qed.

Lemma tryFontSize_None words fs :
  ~ fitsAt measureText fs words -> tryFontSize measureText words fs = None.
Proof.
  intros H. destruct (tryFontSize measureText words fs) as [sol|] eqn:E.
  - apply tryFontSize_Some in E as [Hfit _]. contradiction.
  - reflexivity.
Qed.

Lemma tryFontSize_oversized words fs :
  (exists w, In w words /\ usableWidth < measureText fs w) ->
  tryFontSize measureText words fs = None.
Proof.
  intros [w [Hin Hbig]]. apply tryFontSize_None. intros [Hfit _].
  apply (Qlt_not_le _ _ Hbig). now apply Hfit.
Qed.

End PackingFacts.

(** ** The search over font sizes *)
Section SearchFacts.

Variable measureText : Z -> jsstring -> Q.

Lemma searchFrom_stop words fs :
  (fs <= 10)%Z ->
  searchFrom measureText words fs
  = mkSearch (fallbackLayout measureText words) [].
Proof.
  intros H. simp searchFrom. destruct (Z_gt_dec fs 10); [lia|reflexivity].
Qed.

Lemma searchFrom_accept words fs sol :
  (10 < fs)%Z ->
  tryFontSize measureText words fs = Some sol ->
  searchFrom measureText words fs = mkSearch sol [fs].
Proof.
  intros H E. simp searchFrom. destruct (Z_gt_dec fs 10); [|lia].
  simpl. rewrite E. reflexivity.
Qed.

Lemma searchFrom_reject words fs :
  (10 < fs)%Z ->
  tryFontSize measureText words fs = None ->
  searchFrom measureText words fs
  = mkSearch (solution (searchFrom measureText words (fs - 2)))
             (fs :: tried (searchFrom measureText words (fs - 2))).
Proof.
  intros H E. rewrite searchFrom_equation_1.
  destruct (Z_gt_dec fs 10); [|lia].
  simpl. rewrite E. reflexivity.
Qed.

(** Induction along the sizes the loop visits. *)
Lemma search_ind (P : Z -> Prop) :
  (forall fs, (fs <= 10)%Z -> P fs) ->
  (forall fs, (10 < fs)%Z -> P (fs - 2)%Z -> P fs) ->
  forall fs, P fs.
Proof.
  intros Hstop Hstep fs.
  induction fs as [fs IH] using (well_founded_induction (Z.lt_wf 10)).
  destruct (Z_le_gt_dec fs 10) as [Hle|Hgt].
  - now apply Hstop.
  - apply Hstep; [lia|].
    destruct (Z_le_gt_dec (fs - 2) 10) as [Hle'|Hgt'].
    + now apply Hstop.
    + apply IH. lia.
Qed.

Lemma descending_S from n :
  descending from (S n) = from :: descending (from - 2) n.
Proof.
  unfold descending. cbn [map seq]. f_equal; [lia|].
  rewrite <- seq_shift, map_map. apply map_ext. intros j. lia.
Qed.

(** The returned object is built at a size the loop visited, or is the
    fallback. *)
Lemma searchFrom_cases words fs :
  (exists s, (10 < s <= fs)%Z /\
     tryFontSize measureText words s
     = Some (solution (searchFrom measureText words fs))) \/
  solution (searchFrom measureText words fs)
  = fallbackLayout measureText words.
Proof.
  induction fs as [fs Hle | fs Hgt IH] using search_ind.
  - right. now rewrite searchFrom_stop.
  - destruct (tryFontSize measureText words fs) as [sol|] eqn:E.
    + left. exists fs. rewrite (searchFrom_accept _ _ _ Hgt E). simpl.
      split; [lia|assumption].
    + rewrite (searchFrom_reject _ _ Hgt E). simpl.
      destruct IH as [[s [Hs Htry]]|Hfb].
      * left. exists s. split; [lia|assumption].
      * now right.
Qed.

(** Shape of the log of visited sizes, for any starting size. *)
Lemma searchFrom_tried words fs :
  let r := searchFrom measureText words fs in
  tried r = descending fs (length (tried r)) /\
  Forall (fun s => (10 < s)%Z) (tried r) /\
  (2 * Z.of_nat (length (tried r)) <= Z.max 0 (fs - 9))%Z.
Proof.
  induction fs as [fs Hle | fs Hgt IH] using search_ind; cbv zeta in *.
  - rewrite searchFrom_stop by assumption. simpl.
    repeat split; [constructor | lia].
  - destruct (tryFontSize measureText words fs) as [sol|] eqn:E.
    + rewrite (searchFrom_accept _ _ _ Hgt E). simpl.
      repeat split; [unfold descending; cbn [map seq]; f_equal; lia | | lia].
      constructor; [assumption|constructor].
    + rewrite (searchFrom_reject _ _ Hgt E). simpl.
      destruct IH as [Hshape [Hall Hlen]].
      repeat split.
      * rewrite descending_S. f_equal. exact Hshape.
      * constructor; assumption.
      * lia.
Qed.

(** When every visited size is given up, the fallback is returned. *)
Lemma searchFrom_all_rejected words fs :
  (forall s, (10 < s <= fs)%Z -> tryFontSize measureText words s = None) ->
  solution (searchFrom measureText words fs)
  = fallbackLayout measureText words.
Proof.
  induction fs as [fs Hle | fs Hgt IH] using search_ind; intros Hrej.
  - now rewrite searchFrom_stop.
  - rewrite searchFrom_reject; [|assumption|apply Hrej; lia].
    simpl. apply IH. intros s Hs. apply Hrej. lia.
Qed.

(** The size handed to the renderer is never below the minimum. *)
Lemma searchFrom_fontSize_min words fs :
  (10 <= fontSize (solution (searchFrom measureText words fs)))%Z.
Proof.
  destruct (searchFrom_cases words fs) as [[s [Hr Hs]]|Hf].
  - apply tryFontSize_Some in Hs as [_ ->]. simpl. lia.
  - rewrite Hf. simpl. lia.
Qed.

(** The first size that fits ends the search. *)
Lemma searchFrom_first_fit words (k : nat) : forall fs s,
  s = (fs - 2 * Z.of_nat k)%Z ->
  (10 < s)%Z ->
  fitsAt measureText s words ->
  (forall j, (j < k)%nat ->
     ~ fitsAt measureText (fs - 2 * Z.of_nat j) words) ->
  searchFrom measureText words fs
  = mkSearch (mkSolution s (greedyLines measureText s words)
                         (inject_Z s * (12 # 10)))
             (descending fs (S k)).
Proof.
  induction k as [|k IH]; intros fs s Hs Hgt Hfit Hrej.
  - assert (Hsame : s = fs) by lia. clear Hs. subst s.
    rewrite (searchFrom_accept words fs
               (mkSolution fs (greedyLines measureText fs words)
                           (inject_Z fs * (12 # 10)))).
    + unfold descending. cbn [map seq]. do 2 f_equal. lia.
    + lia.
    + apply tryFontSize_Some. split; [assumption|reflexivity].
  - rewrite searchFrom_reject.
    + rewrite (IH (fs - 2)%Z s); [| lia | assumption | assumption |].
      * simpl. now rewrite (descending_S fs (S k)).
      * intros j Hj.
        replace (fs - 2 - 2 * Z.of_nat j)%Z
          with (fs - 2 * Z.of_nat (S j))%Z by lia.
        apply Hrej. lia.
    + lia.
    + apply tryFontSize_None.
      replace fs with (fs - 2 * Z.of_nat 0)%Z by lia.
      apply Hrej. lia.
Qed.

End SearchFacts.

(** ** The layout solver: claims *)
Section LayoutClaims.

Variable measureText : Z -> jsstring -> Q.

Lemma placeWord_append sw st w ww :
  currentLine st = [] \/ currentLineWidth st + ww <= usableWidth ->
  placeWord sw st w ww
  = mkPack (pLines st) (currentLine st ++ [w])
           (currentLineWidth st + (ww + sw)).
Proof.
  intros H. unfold placeWord, lineIsEmpty.
  destruct H as [-> | H].
  - now rewrite orb_true_r.
  - rewrite <- maxWidth_usable in H. apply Qle_bool_iff in H.
    now rewrite H.
Qed.

Lemma placeWord_newline sw st w ww :
  ~ (currentLine st = [] \/ currentLineWidth st + ww <= usableWidth) ->
  placeWord sw st w ww
  = mkPack (pLines st ++ [currentLine st]) [w] (ww + sw).
Proof.
  intros H. unfold placeWord, lineIsEmpty.
  destruct (Qle_bool (currentLineWidth st + ww) maxWidth) eqn:E.
  - exfalso. apply H. right. rewrite <- maxWidth_usable.
    now apply Qle_bool_iff.
  - destruct (currentLine st) eqn:El; [|reflexivity].
    exfalso. apply H. now left.
Qed.

Lemma packChecked_snoc fs ws w st0 st :
  packChecked measureText fs ws st0 = (st, true) ->
  measureText fs w <= usableWidth ->
  packChecked measureText fs (ws ++ [w]) st0
  = (placeWord (spaceWidthAt measureText fs) st w (measureText fs w), true).
Proof.
  intros Hws Hw. apply packChecked_true in Hws as [Hfit ->].
  rewrite packChecked_fits.
  - now rewrite packForced_snoc.
  - intros w' Hin. apply in_app_or in Hin as [Hin | [<- | []]].
    + now apply Hfit.
    + now rewrite maxWidth_usable.
Qed.

(** C1. The search visits the sizes 120, 118, ... in this order and stops
    at the first one that fits: when [s = 120 - 2k] (above the minimum 10)
    is a size at which every word packs and the block of lines, line count
    times [s] times 1.2, is at most the usable height
    [canvasHeight * (1 - 2 * marginFraction)], and no larger candidate
    fits, the solver returns the greedy layout at [s], and the sizes it
    has tried are exactly 120, 118, ..., [s]: nothing smaller than the
    accepted size is looked at.  It holds for every word list, empty or
    not. *)
Theorem findOptimalFontSize_first_fit (words : list jsstring) (k : nat) :
  (10 < 120 - 2 * Z.of_nat k)%Z ->
  fitsAt measureText (120 - 2 * Z.of_nat k) words ->
  (forall j, (j < k)%nat ->
     ~ fitsAt measureText (120 - 2 * Z.of_nat j) words) ->
  findOptimalFontSize measureText words
  = mkSolution (120 - 2 * Z.of_nat k)
               (greedyLines measureText (120 - 2 * Z.of_nat k) words)
               (inject_Z (120 - 2 * Z.of_nat k) * (12 # 10))
  /\ tried (searchFrom measureText words 120) = descending 120 (S k).
Proof.
  intros Hgt Hfit Hrej. unfold findOptimalFontSize.
  rewrite (searchFrom_first_fit measureText words k 120
             (120 - 2 * Z.of_nat k)%Z eq_refl Hgt Hfit Hrej).
  split; reflexivity.
Qed.

(** C2. Greedy packing at a candidate size [fs].  Let [st] be the state of
    the loop once the words [ws] are packed and [w] the next word.
    - If [w] alone is wider than the usable width
      [canvasWidth * (1 - 2 * marginFraction)], the size is given up and
      the loop goes on with [fs - 2].
    - Otherwise [w] joins the current line exactly when that line is empty
      or its accumulated width plus the width of [w] is at most the usable
      width; if not, the current line is closed and [w] starts a new one.
    - A size that is accepted keeps every word whole: its lines, put end to
      end, are the input words. *)
Theorem greedy_packing_rule (fs : Z) (ws : list jsstring) (w : jsstring)
        (rest : list jsstring) (st : PackState) :
  packChecked measureText fs ws emptyPack = (st, true) ->
  let words := ws ++ w :: rest in
  let ww := measureText fs w in
  let sw := measureText fs (lit " ") in
  (usableWidth < ww ->
     tryFontSize measureText words fs = None /\
     ((10 < fs)%Z ->
        solution (searchFrom measureText words fs)
        = solution (searchFrom measureText words (fs - 2)) /\
        tried (searchFrom measureText words fs)
        = fs :: tried (searchFrom measureText words (fs - 2))))
  /\
  (ww <= usableWidth ->
     exists st',
       packChecked measureText fs (ws ++ [w]) emptyPack = (st', true) /\
       (currentLine st = [] \/ currentLineWidth st + ww <= usableWidth ->
          pLines st' = pLines st /\
          currentLine st' = currentLine st ++ [w] /\
          currentLineWidth st' = currentLineWidth st + (ww + sw)) /\
       (~ (currentLine st = [] \/ currentLineWidth st + ww <= usableWidth) ->
          pLines st' = pLines st ++ [currentLine st] /\
          currentLine st' = [w] /\
          currentLineWidth st' = ww + sw))
  /\
  (forall sol, tryFontSize measureText words fs = Some sol ->
     concat (lines sol) = words).
Proof.
  intros Hws words ww sw. repeat split.
  - apply tryFontSize_oversized. exists w. split; [|assumption].
    unfold words. apply in_or_app. right. now left.
  - rewrite searchFrom_reject; [reflexivity|assumption|].
    apply tryFontSize_oversized. exists w. split; [|assumption].
    unfold words. apply in_or_app. right. now left.
  - rewrite searchFrom_reject; [reflexivity|assumption|].
    apply tryFontSize_oversized. exists w. split; [|assumption].
    unfold words. apply in_or_app. right. now left.
  - intros Hw.
    exists (placeWord (spaceWidthAt measureText fs) st w ww).
    split; [now apply packChecked_snoc|]. split.
    + intros Hc. rewrite (placeWord_append _ _ _ _ Hc). simpl.
      repeat split.
    + intros Hc. rewrite (placeWord_newline _ _ _ _ Hc). simpl.
      repeat split.
  - intros sol Hsol. apply tryFontSize_Some in Hsol as [_ ->]. simpl.
    apply greedyLines_concat.
Qed.

(** C4. On both paths, the accepted size and the fallback, the lines of
    the returned solution put end to end are the input words: none is
    lost, repeated, moved or cut. *)
Theorem lines_concat_words (words : list jsstring) :
  concat (lines (findOptimalFontSize measureText words)) = words
  /\ (forall fs sol, tryFontSize measureText words fs = Some sol ->
        concat (lines sol) = words)
  /\ concat (lines (fallbackLayout measureText words)) = words.
Proof.
  assert (Hacc : forall fs sol,
            tryFontSize measureText words fs = Some sol ->
            concat (lines sol) = words).
  { intros fs sol H. apply tryFontSize_Some in H as [_ ->]. simpl.
    apply greedyLines_concat. }
  assert (Hfb : concat (lines (fallbackLayout measureText words)) = words).
  { unfold fallbackLayout. simpl. now rewrite packForced_concat. }
  split; [|split; assumption].
  unfold findOptimalFontSize.
  destruct (searchFrom_cases measureText words 120) as [[s [_ Hs]]|Hf].
  - now apply (Hacc s).
  - now rewrite Hf.
Qed.

(** C5. Every returned solution satisfies: line count times line height
    is at most the usable height, or the font size is the minimum 10. *)
Theorem height_fits_or_minimum (words : list jsstring) :
  let sol := findOptimalFontSize measureText words in
  inject_Z (Z.of_nat (length (lines sol))) * lineHeight sol <= usableHeight
  \/ fontSize sol = 10%Z.
Proof.
  cbv zeta. unfold findOptimalFontSize.
  destruct (searchFrom_cases measureText words 120) as [[s [_ Hs]]|Hf].
  - left. apply tryFontSize_Some in Hs as [[_ Hh] ->]. simpl. exact Hh.
  - right. now rewrite Hf.
Qed.

(** C9. The search ends for every word list and every measurement
    function: [searchFrom] is a total function, its sizes go down by 2 from
    120 and stay above 10, so at most 55 of them are tried, and the font
    size of the returned solution lies between 10 and 120. *)
Theorem search_terminates_in_range (words : list jsstring) :
  let r := searchFrom measureText words 120 in
  findOptimalFontSize measureText words = solution r /\
  (10 <= fontSize (solution r) <= 120)%Z /\
  (length (tried r) <= 55)%nat /\
  tried r = descending 120 (length (tried r)) /\
  Forall (fun s => (10 < s)%Z) (tried r).
Proof.
  cbv zeta. split; [reflexivity|].
  destruct (searchFrom_tried measureText words 120) as [Hshape [Hall Hlen]].
  cbv zeta in *. split; [|split; [lia|split; assumption]].
  destruct (searchFrom_cases measureText words 120) as [[s [Hr Hs]]|Hf].
  - apply tryFontSize_Some in Hs as [_ ->]. simpl. lia.
  - rewrite Hf. simpl. lia.
Qed.

End LayoutClaims.

(** ** String search and replacement *)

Lemma startsWith_app (p s : jsstring) : startsWith p (p ++ s) = true.
Proof.
  induction p as [|a p IH]; simpl; [reflexivity|].
  unfold code_eqb. now rewrite N.eqb_refl.
Qed.

Lemma startsWith_split (p s : jsstring) :
  startsWith p s = true -> s = p ++ skipn (length p) s.
Proof.
  revert s. induction p as [|a p IH]; intros s H; simpl in *.
  - reflexivity.
  - destruct s as [|b s]; [discriminate|].
    apply andb_true_iff in H as [Hab Hp].
    unfold code_eqb in Hab. apply N.eqb_eq in Hab. subst b.
    simpl. f_equal. now apply IH.
Qed.

Lemma includes_startsWith (p s : jsstring) :
  startsWith p s = true -> includes p s = true.
Proof. intros H. destruct s; simpl; now rewrite H. Qed.

Lemma includes_app_r (p a s : jsstring) :
  includes p s = true -> includes p (a ++ s) = true.
Proof.
  intros H. induction a as [|c a IH]; simpl; [assumption|].
  rewrite IH. apply orb_true_r.
Qed.

Lemma startsWith_app_l (p s b : jsstring) :
  startsWith p s = true -> startsWith p (s ++ b) = true.
Proof.
  revert s. induction p as [|a p IH]; intros s H; simpl in *.
  - reflexivity.
  - destruct s as [|c s]; [discriminate|]. simpl.
    apply andb_true_iff in H as [Hac Hp]. rewrite Hac. simpl.
    now apply IH.
Qed.

Lemma includes_app_l (p s b : jsstring) :
  includes p s = true -> includes p (s ++ b) = true.
Proof.
  induction s as [|c s IH]; intros H.
  - simpl in H. rewrite orb_false_r in H.
    apply includes_startsWith. now apply (startsWith_app_l p [] b).
  - cbn [includes] in H. apply orb_true_iff in H as [H|H].
    + apply includes_startsWith. now apply (startsWith_app_l p (c :: s) b).
    + simpl. rewrite (IH H). apply orb_true_r.
Qed.

Lemma includes_middle (p a b : jsstring) : includes p (a ++ p ++ b) = true.
Proof. apply includes_app_r, includes_startsWith, startsWith_app. Qed.

(** [replace] rewrites the leftmost occurrence of the pattern. *)
Lemma replace_first (p r s : jsstring) :
  includes p s = true ->
  exists pre post,
    s = pre ++ p ++ post /\
    (forall pre' post', s = pre' ++ p ++ post' ->
       (length pre <= length pre')%nat) /\
    replace p r s = pre ++ r ++ post.
Proof.
  induction s as [|c s IH]; intros H.
  - simpl in H. rewrite orb_false_r in H.
    exists [], (skipn (length p) []). simpl. rewrite H.
    split; [now apply startsWith_split|]. split; [intros; lia|reflexivity].
  - destruct (startsWith p (c :: s)) eqn:E.
    + exists [], (skipn (length p) (c :: s)).
      split; [now apply startsWith_split|].
      split; [intros; simpl; lia|].
      cbn [replace]. now rewrite E.
    + cbn [includes] in H. rewrite E in H. simpl in H.
      destruct (IH H) as [pre [post [Hs [Hmin Hrep]]]].
      exists (c :: pre), post. split; [simpl; now f_equal|]. split.
      * intros pre' post' Hs'. destruct pre' as [|c' pre'].
        -- simpl in Hs'. rewrite Hs' in E.
           rewrite startsWith_app in E. discriminate.
        -- simpl in Hs'. inversion Hs'. simpl.
           apply le_n_S. now apply (Hmin pre' post').
      * cbn [replace]. rewrite E. simpl. now f_equal.
Qed.

Lemma svgOpenTag_width size : includes (lit "width=") (svgOpenTag size) = true.
Proof.
  change (svgOpenTag size) with
    (lit "<svg " ++ lit "width=" ++ [dquote] ++ numberToString size ++
     [dquote] ++ lit " height=" ++ [dquote] ++ numberToString size ++
     [dquote]).
  apply includes_middle.
Qed.

Lemma svgOpenTag_height size :
  includes (lit "height=") (svgOpenTag size) = true.
Proof.
  unfold svgOpenTag.
  change (lit " height=") with (lit " " ++ lit "height=").
  rewrite <- (app_assoc (lit " ")).
  rewrite !app_assoc. rewrite <- !app_assoc.
  do 4 apply includes_app_r. apply includes_middle.
Qed.

(** ** [processSVG] *)

(** C8, as stated, fails: a markup with a [width] but no [height] is
    returned as it is, and the result holds no [height] attribute; a
    retrieved body without [<svg] tag is returned as it is too. *)
Lemma processSVG_keeps_missing_height :
  (processSVG widthOnlySvg 108 = widthOnlySvg /\
   includes (lit "height=") (processSVG widthOnlySvg 108) = false /\
   hasExplicitSize (processSVG widthOnlySvg 108) = false) /\
  (processSVG notFoundBody 108 = notFoundBody /\
   hasExplicitSize (processSVG notFoundBody 108) = false).
Proof. repeat split. Qed.

(** C8, amended.  When the markup contains neither [width=] nor [height=]
    and has an [<svg] tag, both attributes, set to the emoji size, are put
    into the leftmost [<svg] tag and the result holds explicit sizing.
    When the markup already contains both, it is returned unchanged, so
    the result holds explicit sizing as well. *)
Theorem processSVG_explicit_size (svgString : jsstring) (size : Z) :
  (includes (lit "width=") svgString = false ->
   includes (lit "height=") svgString = false ->
   includes (lit "<svg") svgString = true ->
   exists pre post,
     svgString = pre ++ lit "<svg" ++ post /\
     (forall pre' post', svgString = pre' ++ lit "<svg" ++ post' ->
        (length pre <= length pre')%nat) /\
     processSVG svgString size = pre ++ svgOpenTag size ++ post /\
     hasExplicitSize (processSVG svgString size) = true)
  /\
  (includes (lit "width=") svgString = true ->
   includes (lit "height=") svgString = true ->
   processSVG svgString size = svgString /\
   hasExplicitSize (processSVG svgString size) = true).
Proof.
  split.
  - intros Hw Hh Hsvg. unfold processSVG. rewrite Hw, Hh. cbn [negb andb].
    destruct (replace_first (lit "<svg") (svgOpenTag size) svgString Hsvg)
      as [pre [post [Hs [Hmin Hrep]]]].
    exists pre, post. repeat split; try assumption.
    rewrite Hrep. unfold hasExplicitSize. apply andb_true_iff. split.
    + apply includes_app_r, includes_app_l, svgOpenTag_width.
    + apply includes_app_r, includes_app_l, svgOpenTag_height.
  - intros Hw Hh. unfold processSVG, hasExplicitSize. rewrite Hw.
    cbn [negb andb]. rewrite Hw, Hh. split; reflexivity.
Qed.

(** ** The line renderer: claims *)

Lemma mathRound_nonneg (x : Q) : 0 <= x -> (0 <= mathRound x)%Z.
Proof.
  intros H. unfold mathRound.
  change 0%Z with (Qfloor 0). apply Qfloor_resp_le. lra.
Qed.

Lemma inject_Z_nonneg (z : Z) : (0 <= z)%Z -> 0 <= inject_Z z.
Proof. intros H. change 0 with (inject_Z 0). now rewrite <- Zle_Qle. Qed.

Section RenderClaims.

Variable measureText : Z -> jsstring -> Q.
Variable parseParts : jsstring -> list jsstring.
Variable fetchText : jsstring -> option jsstring.
Variable loadImage : jsstring -> option Image.

Local Abbreviation drawPart' := (drawPart measureText fetchText loadImage).
Local Abbreviation drawParts' := (drawParts measureText fetchText loadImage).
Local Abbreviation drawTextWithEmoji' :=
  (drawTextWithEmoji measureText parseParts fetchText loadImage).

Lemma drawParts_app y fs pre post st :
  drawParts' y fs (pre ++ post) st = drawParts' y fs post (drawParts' y fs pre st).
Proof. unfold drawParts. apply fold_left_app. Qed.

Lemma drawPart_cursor y fs st part :
  (forall s, 0 <= measureText fs s) -> (0 <= fs)%Z ->
  snd st <= snd (drawPart' y fs st part).
Proof.
  intros Hm Hfs. destruct st as [ctx cursorX]. unfold drawPart.
  pose proof (inject_Z_nonneg fs Hfs) as Hq.
  destruct (startsWith (lit "<img") part).
  - destruct (matchSrc part) as [url|]; [|simpl; lra].
    destruct (loadGlyph _ _ _ _) as [img|]; simpl.
    + assert (0 <= inject_Z (mathRound (inject_Z fs * (9 # 10)))).
      { apply inject_Z_nonneg, mathRound_nonneg. lra. }
      lra.
    + lra.
  - simpl. specialize (Hm part). lra.
Qed.

Lemma drawParts_cursor y fs parts st :
  (forall s, 0 <= measureText fs s) -> (0 <= fs)%Z ->
  snd st <= snd (drawParts' y fs parts st).
Proof.
  intros Hm Hfs. revert st. induction parts as [|p parts IH]; intros st.
  - simpl. lra.
  - unfold drawParts. simpl. fold (drawParts' y fs parts (drawPart' y fs st p)).
    apply Qle_trans with (snd (drawPart' y fs st p)).
    + now apply drawPart_cursor.
    + apply IH.
Qed.

Lemma drawPart_segment y fs st q :
  segmentDrawn measureText fetchText loadImage fs y st q (drawPart' y fs st q).
Proof.
  destruct st as [ctx cursorX]. unfold drawPart.
  destruct (startsWith (lit "<img") q) eqn:Ei.
  - destruct (matchSrc q) as [url|] eqn:Em.
    + destruct (loadGlyph fetchText loadImage url
                  (mathRound (inject_Z fs * (9 # 10)))) as [img|] eqn:Eg.
      * unfold loadGlyph in Eg.
        destruct (fetchText url) as [svg|] eqn:Ef; [|discriminate].
        now apply (glyphRun _ _ _ _ _ _ _ _ url svg img).
      * now apply (glyphFailed _ _ _ _ _ _ _ _ url).
    + now apply noSource.
  - now apply textRun.
Qed.

Lemma drawParts_segments y fs parts st :
  segmentsDrawn measureText fetchText loadImage fs y st parts
                (drawParts' y fs parts st).
Proof.
  revert st. induction parts as [|q parts IH]; intros st.
  - apply noSegment.
  - unfold drawParts. simpl.
    fold (drawParts' y fs parts (drawPart' y fs st q)).
    apply (nextSegment _ _ _ _ _ st q (drawPart' y fs st q)).
    + apply drawPart_segment.
    + apply IH.
Qed.

Lemma segmentsDrawn_ops fs y st parts st' :
  segmentsDrawn measureText fetchText loadImage fs y st parts st' ->
  exists more, ops (fst st') = ops (fst st) ++ more.
Proof.
  induction 1 as [st|st q st1 rest st2 Hq _ [more Hmore]].
  - exists []. now rewrite app_nil_r.
  - destruct Hq as [_ Ho _ _|url svg img _ _ _ _ Ho _ _|url _ _ _ Ho _ _
                    |_ _ Ho _ _]; rewrite Hmore, Ho.
    + eexists. rewrite <- app_assoc. reflexivity.
    + eexists. rewrite <- app_assoc. reflexivity.
    + eexists. rewrite <- app_assoc. reflexivity.
    + eexists. reflexivity.
Qed.

(** C6. Let the parts of a line be [pre], then an emoji part whose glyph
    cannot be fetched or decoded, then [post].  The renderer paints one
    placeholder box at the cursor and the baseline in the bold text face
    and moves the cursor by 0.8 times the font size; nothing is thrown,
    the call returns a cursor in every case.  It then renders every
    segment of [post], in order, each from the canvas and the cursor the
    one before has left: a text run is painted with [fillText] and moves
    the cursor by its measured width, a glyph that loads is painted with
    [drawImage], one that fails gets its own placeholder.  The
    placeholder and all these paint calls stay on the canvas that is
    returned.  For non-negative measurements the returned cursor is at
    least 0.8 times the font size beyond the start. *)
Theorem glyph_failure_placeholder (ctx : Ctx) (text : jsstring) (x y : Q)
        (fontSize : Z) (pre post : list jsstring) (part url : jsstring) :
  parseParts text = pre ++ part :: post ->
  startsWith (lit "<img") part = true ->
  matchSrc part = Some url ->
  (fetchText url = None \/
   exists svg, fetchText url = Some svg /\
     loadImage (processSVG svg (mathRound (inject_Z fontSize * (9 # 10))))
     = None) ->
  let before := drawParts' y fontSize pre (ctx, x) in
  let after :=
    (fillText placeholderBox (snd before) y
              (setFont (BoldNarrow fontSize) (fst before)),
     snd before + inject_Z fontSize * (8 # 10)) in
  let final := drawTextWithEmoji' ctx text x y fontSize in
  drawPart' y fontSize before part = after /\
  ops (fst after)
  = ops (fst before) ++
    [FillText placeholderBox (snd before) y (BoldNarrow fontSize)
              (fillStyle (fst before))] /\
  final = drawParts' y fontSize post after /\
  segmentsDrawn measureText fetchText loadImage fontSize y after post final /\
  (exists more,
     ops (fst final)
     = ops (fst before) ++
       [FillText placeholderBox (snd before) y (BoldNarrow fontSize)
                 (fillStyle (fst before))] ++ more) /\
  ((forall s, 0 <= measureText fontSize s) -> (0 <= fontSize)%Z ->
   x + inject_Z fontSize * (8 # 10) <= snd final).
Proof.
  intros Hparts Himg Hsrc Hfail before after final.
  assert (Hglyph : loadGlyph fetchText loadImage url
                     (mathRound (inject_Z fontSize * (9 # 10))) = None).
  { unfold loadGlyph. destruct Hfail as [-> | [svg [-> Hload]]];
      [reflexivity|assumption]. }
  assert (Hstep : drawPart' y fontSize before part = after).
  { unfold drawPart. destruct before as [ctx1 x1] eqn:Eb.
    rewrite Himg, Hsrc, Hglyph. reflexivity. }
  assert (Hall : final = drawParts' y fontSize post after).
  { unfold final, drawTextWithEmoji. rewrite Hparts.
    rewrite drawParts_app. fold before.
    unfold drawParts at 1. simpl. rewrite Hstep. reflexivity. }
  assert (Hseg : segmentsDrawn measureText fetchText loadImage fontSize y
                               after post final).
  { rewrite Hall. apply drawParts_segments. }
  split; [assumption|]. split; [reflexivity|]. split; [assumption|].
  split; [assumption|]. split.
  - destruct (segmentsDrawn_ops _ _ _ _ _ Hseg) as [more Hmore].
    exists more. rewrite Hmore. simpl. now rewrite <- app_assoc.
  - intros Hm Hfs. rewrite Hall.
    apply Qle_trans with (snd after).
    + simpl.
      pose proof (drawParts_cursor y fontSize pre (ctx, x) Hm Hfs) as Hle.
      fold before in Hle. simpl in Hle. lra.
    + now apply drawParts_cursor.
Qed.

(** C10, amended.  The cursor never moves back when the measured widths
    and the font size are not negative (the compositor passes a size of
    at least 10, see [searchFrom_fontSize_min]): every part (text, glyph,
    placeholder, or an image part without source) then moves it by a
    non-negative amount, and the cursor returned for a line is at least
    the start position. *)
Theorem cursor_never_moves_back (ctx : Ctx) (text : jsstring) (x y : Q)
        (fontSize : Z) :
  (forall s, 0 <= measureText fontSize s) ->
  (0 <= fontSize)%Z ->
  (forall st part, snd st <= snd (drawPart' y fontSize st part)) /\
  (forall pre post,
     parseParts text = pre ++ post ->
     snd (drawParts' y fontSize pre (ctx, x))
     <= snd (drawTextWithEmoji' ctx text x y fontSize)) /\
  x <= snd (drawTextWithEmoji' ctx text x y fontSize).
Proof.
  intros Hm Hfs. split; [|split].
  - intros st part. now apply drawPart_cursor.
  - intros pre post Hparts. unfold drawTextWithEmoji. rewrite Hparts.
    rewrite drawParts_app. now apply drawParts_cursor.
  - unfold drawTextWithEmoji.
    apply (drawParts_cursor y fontSize (parseParts text) (ctx, x) Hm Hfs).
Qed.

End RenderClaims.

(** C10, as stated for every font size and with no condition on the
    measured widths, fails: at font size -10 the placeholder of a glyph
    that cannot be loaded moves the cursor from 25 back to 17, and a
    measurement that reports a negative width moves it back on a text
    run. *)
Lemma cursor_moves_back :
  snd (drawTextWithEmoji sampleMeasure onlyEmoji fetchFails decodeAny
         freshCtx (lit ":)") 25 45 (-10)) == 17 /\
  snd (drawTextWithEmoji sampleMeasure onlyEmoji fetchFails decodeAny
         freshCtx (lit ":)") 25 45 (-10)) < 25 /\
  snd (drawTextWithEmoji negativeMeasure plainParts fetchFails decodeAny
         freshCtx (lit "Hi") 25 45 20) < 25.
Proof. repeat split. Qed.

(** ** The compositor: claims *)

Lemma trimStart_whitespace (s : jsstring) :
  forallb isWhiteSpace s = true -> trimStart s = [].
Proof.
  induction s as [|c s IH]; simpl; [reflexivity|].
  intros H. apply andb_true_iff in H as [Hc Hs]. rewrite Hc. now apply IH.
Qed.

Lemma trim_whitespace (s : jsstring) :
  forallb isWhiteSpace s = true -> trim s = [].
Proof.
  intros H. unfold trim. now rewrite (trimStart_whitespace s H).
Qed.

(** [split] never returns an empty array. *)
Lemma splitWsFrom_nonempty (cur : jsstring) (inSep : bool) (s : jsstring) :
  splitWsFrom cur inSep s <> [].
Proof.
  revert cur inSep. induction s as [|c s IH]; intros cur inSep; simpl.
  - discriminate.
  - destruct (isWhiteSpace c); [destruct inSep|]; try apply IH.
    discriminate.
Qed.

Section StickerClaims.

Variable measureText : Z -> jsstring -> Q.
Variable parseParts : jsstring -> list jsstring.
Variable fetchText : jsstring -> option jsstring.
Variable loadImage : jsstring -> option Image.
Variable encodeWebp : Ctx -> option (list N).

Local Abbreviation createSticker' :=
  (createSticker measureText parseParts fetchText loadImage encodeWebp).
Local Abbreviation handleMkstr' :=
  (handleMkstr measureText parseParts fetchText loadImage encodeWebp).

(** The test of line 405 never succeeds. *)
Lemma createSticker_never_NoOp (text : jsstring) (ctx : Ctx) :
  createSticker' text <> NoOp ctx.
Proof.
  unfold createSticker.
  destruct (splitWs (trim text)) as [|w ws] eqn:E.
  - exfalso. exact (splitWsFrom_nonempty _ _ _ E).
  - cbn [length Nat.eqb]. destruct (encodeWebp _); discriminate.
Qed.

(** C7 on the code.  For a text made of whitespace only, [split] yields
    one empty word, so [createSticker] does not return at line 405: it lays
    out that word, renders it and, when the encoding succeeds, sends a
    sticker.  Such a text reaches [createSticker] when [/mkstr] is sent as
    a reply to a message whose text is that whitespace. *)
Theorem whitespace_text_not_rejected (text : jsstring) :
  forallb isWhiteSpace text = true ->
  splitWs (trim text) = [ [] ] /\
  (forall ctx, createSticker' text <> NoOp ctx) /\
  (forall webp, (forall c, encodeWebp c = Some webp) ->
     exists ctx,
       createSticker' text
       = StickerSent (findOptimalFontSize measureText [ [] ]) ctx webp) /\
  (text <> [] ->
   handleMkstr' (lit "/mkstr") (Some (mkQuoted (Some text) None))
   = Some (createSticker' text)).
Proof.
  intros Hws. rewrite (trim_whitespace text Hws).
  split; [reflexivity|]. split; [apply createSticker_never_NoOp|]. split.
  - intros webp Henc. unfold createSticker.
    rewrite (trim_whitespace text Hws). cbn [splitWs splitWsFrom rev length Nat.eqb].
    rewrite Henc. eexists. reflexivity.
  - intros Hne. destruct text as [|c t]; [contradiction|]. reflexivity.
Qed.

End StickerClaims.

(** * The claims on concrete inputs *)

Lemma sampleMeasure_nonneg (fs : Z) (s : jsstring) :
  (0 <= fs)%Z -> 0 <= sampleMeasure fs s.
Proof.
  intros H. unfold sampleMeasure.
  pose proof (inject_Z_nonneg fs H) as Hfs.
  pose proof (inject_Z_nonneg _ (Nat2Z.is_nonneg (length s))) as Hlen.
  pose proof (Qmult_le_0_compat _ _ Hfs Hlen) as Hp. lra.
Qed.

(** An eight-letter word is too wide at 120, 118 and 116 and fits at 114. *)
Lemma first_fit_witness :
  findOptimalFontSize sampleMeasure [lit "Hello!!!"]
  = mkSolution 114 [[lit "Hello!!!"]] (inject_Z 114 * (12 # 10))
  /\ tried (searchFrom sampleMeasure [lit "Hello!!!"] 120)
     = [120; 118; 116; 114]%Z.
Proof.
  apply (findOptimalFontSize_first_fit sampleMeasure [lit "Hello!!!"] 3).
  - reflexivity.
  - split.
    + intros w [<- | []]. vm_compute. discriminate.
    + vm_compute. discriminate.
  - intros j Hj [Hw _]. specialize (Hw _ (or_introl eq_refl)).
    destruct j as [|[|[|j]]]; [| | | lia];
      vm_compute in Hw; apply Hw; reflexivity.
Defined.

(** At 120 the word [you] joins the line that holds [Hi]. *)
Lemma greedy_packing_witness :
  exists st',
    packChecked sampleMeasure 120 [lit "Hi"; lit "you"] emptyPack
    = (st', true) /\
    pLines st' = [] /\ currentLine st' = [lit "Hi"; lit "you"].
Proof.
  destruct (greedy_packing_rule sampleMeasure 120 [lit "Hi"] (lit "you") []
              (fst (packChecked sampleMeasure 120 [lit "Hi"] emptyPack))
              eq_refl) as [_ [Hfit _]].
  destruct Hfit as [st' [Hp [Happ _]]].
  - vm_compute. discriminate.
  - exists st'. split; [exact Hp|].
    destruct Happ as [Hl [Hc _]].
    + right. vm_compute. discriminate.
    + split; [exact Hl | exact Hc].
Defined.

(** The fallback is returned although forty lines at height 12 overflow
    the usable height. *)
Example fallback_overflow :
  let sol := findOptimalFontSize sampleMeasure (repeat longWord 40) in
  fontSize sol = 10%Z /\ length (lines sol) = 40%nat /\
  usableHeight < inject_Z (Z.of_nat (length (lines sol))) * lineHeight sol.
Proof. vm_compute. repeat split. Qed.

(** Two words that take a line each at 120. *)
Lemma lines_concat_witness :
  tryFontSize sampleMeasure [lit "Hello"; lit "World"] 120
  = Some (mkSolution 120 [[lit "Hello"]; [lit "World"]]
                     (inject_Z 120 * (12 # 10))) /\
  concat [[lit "Hello"]; [lit "World"]] = [lit "Hello"; lit "World"].
Proof.
  split; [reflexivity|].
  exact (proj1 (proj2 (lines_concat_words sampleMeasure
                         [lit "Hello"; lit "World"]))
               120%Z (mkSolution 120 [[lit "Hello"]; [lit "World"]]
                                 (inject_Z 120 * (12 # 10)))
               eq_refl).
Defined.

(** Text, an emoji whose fetch fails, text: the cursor ends at least 16
    beyond the start at size 20. *)
Lemma glyph_failure_witness :
  25 + inject_Z 20 * (8 # 10)
  <= snd (drawTextWithEmoji sampleMeasure threeParts fetchFails decodeAny
            freshCtx (lit "Hi :) you") 25 45 20).
Proof.
  apply (glyph_failure_placeholder sampleMeasure threeParts fetchFails
           decodeAny freshCtx (lit "Hi :) you") 25 45 20
           [lit "Hi "] [lit " you"] sampleImgPart
           (lit "https://cdn.example/svg/1f600.svg")).
  - reflexivity.
  - reflexivity.
  - reflexivity.
  - left. reflexivity.
  - intros s. apply sampleMeasure_nonneg. lia.
  - lia.
Defined.

(** The three paint calls of that line: text, placeholder, text. *)
Example glyph_failure_ops :
  map (fun op => match op with
                 | FillText t _ _ _ _ => Some t
                 | _ => None
                 end)
      (ops (fst (drawTextWithEmoji sampleMeasure threeParts fetchFails
                   decodeAny freshCtx (lit "Hi :) you") 25 45 20)))
  = [Some (lit "Hi "); Some placeholderBox; Some (lit " you")].
Proof. reflexivity. Qed.

Lemma whitespace_witness :
  splitWs (trim (lit "   ")) = [ [] ] /\
  handleMkstr sampleMeasure plainParts fetchFails decodeAny encodeAny
    (lit "/mkstr") (Some (mkQuoted (Some (lit "   ")) None))
  = Some (createSticker sampleMeasure plainParts fetchFails decodeAny
            encodeAny (lit "   ")).
Proof.
  destruct (whitespace_text_not_rejected sampleMeasure plainParts fetchFails
              decodeAny encodeAny (lit "   ") eq_refl) as [Hs [_ [_ Hh]]].
  split; [exact Hs|]. apply Hh. discriminate.
Defined.

(** Replying [/mkstr] to a message of three spaces sends a sticker laid
    out at size 120 with one line holding one empty word. *)
Example whitespace_sticker_sent :
  exists ctx,
    handleMkstr sampleMeasure plainParts fetchFails decodeAny encodeAny
      (lit "/mkstr") (Some (mkQuoted (Some (lit "   ")) None))
    = Some (StickerSent (mkSolution 120 [ [ [] ] ] (inject_Z 120 * (12 # 10)))
                        ctx []).
Proof. eexists. vm_compute. reflexivity. Qed.

(** Sent without reply, [/mkstr] followed by spaces gets the usage
    message. *)
Example mkstr_blank_usage :
  mkstrBranch (lit "/mkstr   ") None = SendUsage.
Proof. reflexivity. Qed.

Lemma processSVG_witness :
  hasExplicitSize (processSVG (lit "<svg viewBox=1></svg>") 108) = true.
Proof.
  destruct (proj1 (processSVG_explicit_size (lit "<svg viewBox=1></svg>") 108)
              eq_refl eq_refl eq_refl) as [pre [post [_ [_ [_ H]]]]].
  exact H.
Defined.

Lemma cursor_witness :
  25 <= snd (drawTextWithEmoji sampleMeasure threeParts fetchFails decodeAny
               freshCtx (lit "Hi :) you") 25 45 20).
Proof.
  apply (cursor_never_moves_back sampleMeasure threeParts fetchFails
           decodeAny freshCtx (lit "Hi :) you") 25 45 20).
  - intros s. apply sampleMeasure_nonneg. lia.
  - lia.
Defined.

(** ** Further runs of the definitions *)

Example splitWs_hello :
  splitWs (trim (lit " Hello  World ")) = [lit "Hello"; lit "World"].
Proof. reflexivity. Qed.

Example splitWs_empty : splitWs (trim []) = [ [] ].
Proof. reflexivity. Qed.

Example numberToString_108 : numberToString 108 = lit "108".
Proof. reflexivity. Qed.

Example numberToString_0 : numberToString 0 = lit "0".
Proof. reflexivity. Qed.

Example matchSrc_sample :
  matchSrc sampleImgPart = Some (lit "https://cdn.example/svg/1f600.svg").
Proof. reflexivity. Qed.

Example processSVG_sample :
  processSVG (lit "<svg viewBox=1></svg>") 108
  = lit "<svg width=" ++ [dquote] ++ lit "108" ++ [dquote] ++
    lit " height=" ++ [dquote] ++ lit "108" ++ [dquote] ++
    lit " viewBox=1></svg>".
Proof. reflexivity. Qed.

Example hello_world_120 :
  findOptimalFontSize sampleMeasure [lit "Hello"; lit "World"]
  = mkSolution 120 [[lit "Hello"]; [lit "World"]] (inject_Z 120 * (12 # 10)).
Proof. reflexivity. Qed.

(** * Further properties of the code *)

(** ** Shape of the lines the packing builds *)
Section LineShape.

Variable measureText : Z -> jsstring -> Q.

Local Abbreviation sw fs := (spaceWidthAt measureText fs).

Lemma placeWord_lines_nonempty sw0 st w ww :
  Forall (fun l => l <> []) (pLines st) ->
  Forall (fun l => l <> []) (pLines (placeWord sw0 st w ww)).
Proof.
  intros H. unfold placeWord, lineIsEmpty.
  destruct (Qle_bool _ _); simpl; [assumption|].
  destruct (currentLine st) eqn:E; simpl; [assumption|].
  apply Forall_app. split; [assumption|].
  constructor; [discriminate|constructor].
Qed.

Lemma packForced_lines_nonempty fs ws st :
  Forall (fun l => l <> []) (pLines st) ->
  Forall (fun l => l <> [])
         (pushLastLine (packForced measureText fs ws st)).
Proof.
  revert st. induction ws as [|w ws IH]; intros st H; simpl.
  - unfold pushLastLine, lineIsEmpty.
    destruct (currentLine st) eqn:E; [assumption|].
    apply Forall_app. split; [assumption|].
    constructor; [discriminate|constructor].
  - apply IH. now apply placeWord_lines_nonempty.
Qed.

Lemma concat_length_nonempty {A} (ls : list (list A)) :
  Forall (fun l => l <> []) ls -> (length ls <= length (concat ls))%nat.
Proof.
  induction 1 as [|l ls Hl _ IH]; simpl; [lia|].
  rewrite length_app. destruct l; [contradiction|simpl; lia].
Qed.

(** The solution returned is the greedy layout at its own size. *)
Lemma solution_is_greedy words :
  lines (findOptimalFontSize measureText words)
  = greedyLines measureText
      (fontSize (findOptimalFontSize measureText words)) words.
Proof.
  unfold findOptimalFontSize.
  destruct (searchFrom_cases measureText words 120) as [[s [_ Hs]]|Hf].
  - apply tryFontSize_Some in Hs as [_ ->]. reflexivity.
  - rewrite Hf. reflexivity.
Qed.

Lemma lines_concat_ok words :
  concat (lines (findOptimalFontSize measureText words)) = words.
Proof. rewrite solution_is_greedy. apply greedyLines_concat. Qed.

(** X1. No line of a returned solution is empty, so there are at most as
    many lines as words, and a word list that is not empty gives at least
    one line. *)
Theorem lines_nonempty_bounded (words : list jsstring) :
  let sol := findOptimalFontSize measureText words in
  Forall (fun l => l <> []) (lines sol) /\
  (length (lines sol) <= length words)%nat /\
  (words <> [] -> lines sol <> []).
Proof.
  cbv zeta.
  assert (Hne : Forall (fun l => l <> [])
                  (lines (findOptimalFontSize measureText words))).
  { rewrite solution_is_greedy. unfold greedyLines.
    apply packForced_lines_nonempty. constructor. }
  pose proof (lines_concat_ok words) as Hc.
  split; [assumption|]. split.
  - rewrite <- Hc at 2. now apply concat_length_nonempty.
  - intros Hw Hl. rewrite Hl in Hc. simpl in Hc. congruence.
Qed.

End LineShape.

(** ** Widths of the lines *)
Section LineWidths.

Variable measureText : Z -> jsstring -> Q.

Local Abbreviation sw fs := (spaceWidthAt measureText fs).
Local Abbreviation acc fs l := (accumulatedWidth measureText fs l).

Lemma accumulatedWidth_snoc fs l w :
  acc fs (l ++ [w]) == acc fs l + (measureText fs w + sw fs).
Proof.
  induction l as [|w' l IH]; unfold accumulatedWidth in *; simpl.
  - lra.
  - rewrite IH. lra.
Qed.

Lemma placeWord_widthsKept fs st w :
  widthsKept measureText fs st ->
  widthsKept measureText fs (placeWord (sw fs) st w (measureText fs w)).
Proof.
  intros [Hcw [Hls Hcl]]. unfold placeWord, lineIsEmpty, widthsKept.
  destruct (Qle_bool (currentLineWidth st + measureText fs w) maxWidth)
    eqn:E; simpl.
  - split; [|split; [assumption|right]].
    + rewrite accumulatedWidth_snoc, Hcw. reflexivity.
    + destruct (currentLine st) as [|w0 l] eqn:El.
      * left. now exists w.
      * right. unfold packedWidth. rewrite accumulatedWidth_snoc.
        apply Qle_bool_iff in E. rewrite Hcw in E.
        rewrite maxWidth_usable in E. lra.
  - destruct (currentLine st) as [|w0 l] eqn:El; simpl.
    + split; [|split; [assumption|right]].
      * rewrite Hcw. unfold accumulatedWidth. simpl. lra.
      * left. now exists w.
    + split; [|split].
      * unfold accumulatedWidth. simpl. lra.
      * apply Forall_app. split; [assumption|].
        constructor; [|constructor].
        destruct Hcl as [Hcl|Hcl]; [discriminate|assumption].
      * right. left. now exists w.
Qed.

Lemma packForced_okLines fs ws st :
  widthsKept measureText fs st ->
  Forall (okLine measureText fs)
         (pushLastLine (packForced measureText fs ws st)).
Proof.
  revert st. induction ws as [|w ws IH]; intros st H; simpl.
  - destruct H as [_ [Hls Hcl]]. unfold pushLastLine, lineIsEmpty.
    destruct (currentLine st) eqn:E; [assumption|].
    apply Forall_app. split; [assumption|].
    constructor; [|constructor].
    destruct Hcl as [Hcl|Hcl]; [discriminate|assumption].
  - apply IH. now apply placeWord_widthsKept.
Qed.

Lemma emptyPack_widthsKept fs : widthsKept measureText fs emptyPack.
Proof.
  split; [reflexivity|]. split; [constructor|now left].
Qed.

Lemma packedWidth_single fs w :
  packedWidth measureText fs [w] == measureText fs w.
Proof. unfold packedWidth, accumulatedWidth. simpl. lra. Qed.

(** X2. Every line of the returned solution, measured as its words with
    one space between neighbours, is at most as wide as the usable width;
    the only exception is a line of the fallback that holds a single word
    wider than the usable width. *)
Theorem line_widths_fit (words : list jsstring) :
  let sol := findOptimalFontSize measureText words in
  Forall (fun l =>
            packedWidth measureText (fontSize sol) l <= usableWidth \/
            (fontSize sol = 10%Z /\
             exists w, l = [w] /\ usableWidth < measureText 10 w))
         (lines sol).
Proof.
  cbv zeta. unfold findOptimalFontSize.
  destruct (searchFrom_cases measureText words 120) as [[s [_ Hs]]|Hf].
  - apply tryFontSize_Some in Hs as [[Hfit _] Hsol]. rewrite Hsol. simpl.
    pose proof (packForced_okLines s words emptyPack
                  (emptyPack_widthsKept s)) as Hok.
    fold (greedyLines measureText s words) in Hok.
    pose proof (greedyLines_concat measureText s words) as Hc.
    rewrite Forall_forall in *. intros l Hl. left.
    destruct (Hok l Hl) as [[w ->]|Hw]; [|assumption].
    rewrite packedWidth_single. apply Hfit. rewrite <- Hc.
    apply in_concat. exists [w]. split; [assumption|now left].
  - rewrite Hf. simpl.
    pose proof (packForced_okLines 10 words emptyPack
                  (emptyPack_widthsKept 10)) as Hok.
    rewrite Forall_forall in *. intros l Hl.
    destruct (Hok l Hl) as [[w ->]|Hw]; [|now left].
    destruct (Qlt_le_dec usableWidth (measureText 10 w)) as [Hbig|Hfit].
    + right. split; [reflexivity|]. now exists w.
    + left. now rewrite packedWidth_single.
Qed.

(** ** Line breaks are forced *)

Lemma breaksForced_last_head fs ls a a' :
  hd_error a = hd_error a' ->
  breaksForced measureText fs (ls ++ [a]) ->
  breaksForced measureText fs (ls ++ [a']).
Proof.
  intros Hhd. induction ls as [|l1 ls IH]; intros H.
  - simpl. split; exact I.
  - destruct ls as [|l2 ls].
    + simpl in *. destruct H as [H _]. split; [|split; exact I].
      destruct a as [|x a], a' as [|x' a']; simpl in Hhd;
        try discriminate; try exact I.
      now inversion Hhd; subst.
    + destruct H as [H1 H2]. split; [exact H1|]. apply IH. exact H2.
Qed.

Lemma breaksForced_snoc fs ls a w :
  breaksForced measureText fs (ls ++ [a]) ->
  usableWidth < acc fs a + measureText fs w ->
  breaksForced measureText fs ((ls ++ [a]) ++ [[w]]).
Proof.
  intros H Hw. induction ls as [|l1 ls IH].
  - simpl. split; [assumption|]. split; [exact I|split; exact I].
  - destruct ls as [|l2 ls].
    + simpl in *. destruct H as [H1 _]. split; [exact H1|].
      split; [assumption|]. split; [exact I|split; exact I].
    + destruct H as [H1 H2]. split; [exact H1|]. apply IH. exact H2.
Qed.

Lemma placeWord_breaksKept fs st w :
  breaksKept measureText fs st ->
  breaksKept measureText fs (placeWord (sw fs) st w (measureText fs w)).
Proof.
  intros [Hcw [Hbr Hnil]]. unfold placeWord, lineIsEmpty, breaksKept.
  destruct (Qle_bool (currentLineWidth st + measureText fs w) maxWidth)
    eqn:E; simpl.
  - split; [|split].
    + rewrite accumulatedWidth_snoc, Hcw. reflexivity.
    + destruct (currentLine st) as [|w0 l] eqn:El.
      * rewrite (Hnil eq_refl). simpl. split; exact I.
      * apply (breaksForced_last_head fs _ (w0 :: l)); [reflexivity|].
        assumption.
    + intros Habs. now destruct (currentLine st).
  - destruct (currentLine st) as [|w0 l] eqn:El; simpl.
    + split; [|split].
      * rewrite Hcw. unfold accumulatedWidth. simpl. lra.
      * rewrite (Hnil eq_refl). simpl. split; exact I.
      * discriminate.
    + split; [|split].
      * unfold accumulatedWidth. simpl. lra.
      * apply breaksForced_snoc; [assumption|].
        rewrite <- Hcw, <- maxWidth_usable. apply Qnot_le_lt.
        intros Hle. apply Qle_bool_iff in Hle. congruence.
      * discriminate.
Qed.

Lemma packForced_breaksForced fs ws st :
  breaksKept measureText fs st ->
  breaksForced measureText fs (pushLastLine (packForced measureText fs ws st)).
Proof.
  revert st. induction ws as [|w ws IH]; intros st H; simpl.
  - destruct H as [_ [Hbr Hnil]]. unfold pushLastLine, lineIsEmpty.
    destruct (currentLine st) eqn:E; [|assumption].
    rewrite (Hnil eq_refl). exact I.
  - apply IH. now apply placeWord_breaksKept.
Qed.

(** X3. The packing is greedy: in the returned solution a line ends only
    where the next word did not fit, that is, the accumulated width of the
    line (each word followed by a space) plus the width of the first word
    of the next line exceeds the usable width. *)
Theorem line_breaks_forced (words : list jsstring) :
  let sol := findOptimalFontSize measureText words in
  breaksForced measureText (fontSize sol) (lines sol).
Proof.
  cbv zeta. rewrite (solution_is_greedy measureText). unfold greedyLines.
  apply packForced_breaksForced.
  split; [reflexivity|]. split; [simpl; split; exact I|reflexivity].
Qed.

End LineWidths.

(** ** The fallback is the greedy layout *)
Section FallbackLayout.

Variable measureText : Z -> jsstring -> Q.

Local Abbreviation sw fs := (spaceWidthAt measureText fs).
Local Abbreviation acc fs l := (accumulatedWidth measureText fs l).

Lemma appendsFit_single fs w : appendsFit measureText fs [w].
Proof.
  intros pre w' post Heq Hpre. destruct pre as [|a pre]; [contradiction|].
  destruct pre; simpl in Heq; inversion Heq.
Qed.

Lemma appendsFit_nil fs : appendsFit measureText fs [].
Proof. intros pre w post Heq. destruct pre; discriminate. Qed.

Lemma appendsFit_snoc fs l w :
  appendsFit measureText fs l ->
  (l <> [] -> acc fs l + measureText fs w <= usableWidth) ->
  appendsFit measureText fs (l ++ [w]).
Proof.
  intros Hl Hw pre w' post Heq Hpre.
  destruct post as [|z post] using rev_ind.
  - apply app_inj_tail in Heq as [-> ->]. now apply Hw.
  - clear IHpost. rewrite app_comm_cons, app_assoc in Heq.
    apply app_inj_tail in Heq as [-> _]. now apply (Hl pre w' post).
Qed.

Lemma placeWord_appendsKept fs st w :
  appendsKept measureText fs st ->
  appendsKept measureText fs (placeWord (sw fs) st w (measureText fs w)).
Proof.
  intros [Hcw [Hcl Hls]]. unfold placeWord, lineIsEmpty, appendsKept.
  destruct (Qle_bool (currentLineWidth st + measureText fs w) maxWidth)
    eqn:E; simpl.
  - split; [|split; [|assumption]].
    + rewrite accumulatedWidth_snoc, Hcw. reflexivity.
    + apply appendsFit_snoc; [assumption|]. intros _.
      apply Qle_bool_iff in E. rewrite Hcw, maxWidth_usable in E. exact E.
  - destruct (currentLine st) as [|w0 l] eqn:El; simpl.
    + split; [|split; [|assumption]].
      * rewrite Hcw. unfold accumulatedWidth. simpl. lra.
      * apply appendsFit_single.
    + split; [|split].
      * unfold accumulatedWidth. simpl. lra.
      * apply appendsFit_single.
      * apply Forall_app. split; [assumption|].
        constructor; [assumption|constructor].
Qed.

Lemma packForced_appendsFit fs ws st :
  appendsKept measureText fs st ->
  Forall (appendsFit measureText fs)
         (pushLastLine (packForced measureText fs ws st)).
Proof.
  revert st. induction ws as [|w ws IH]; intros st H; simpl.
  - destruct H as [_ [Hcl Hls]]. unfold pushLastLine, lineIsEmpty.
    destruct (currentLine st) eqn:E; [assumption|].
    apply Forall_app. split; [assumption|].
    constructor; [assumption|constructor].
  - apply IH. now apply placeWord_appendsKept.
Qed.

(** The loop without oversize test builds the greedy layout. *)
Lemma packForced_greedyLayout fs words :
  greedyLayout measureText fs words
               (pushLastLine (packForced measureText fs words emptyPack)).
Proof.
  split; [|split; [|split]].
  - apply (greedyLines_concat measureText fs words).
  - apply packForced_lines_nonempty. constructor.
  - apply packForced_appendsFit.
    split; [reflexivity|]. split; [apply appendsFit_nil|constructor].
  - apply packForced_breaksForced.
    split; [reflexivity|]. split; [simpl; split; exact I|reflexivity].
Qed.

Lemma prefix_cases {A} (l1 l2 c1 c2 : list A) :
  l1 ++ c1 = l2 ++ c2 ->
  l1 = l2 \/
  (exists w t, l2 = l1 ++ w :: t /\ c1 = w :: t ++ c2) \/
  (exists w t, l1 = l2 ++ w :: t /\ c2 = w :: t ++ c1).
Proof.
  revert l2. induction l1 as [|a l1 IH]; intros l2 H.
  - destruct l2 as [|b l2]; [now left|].
    right. left. exists b, l2. simpl in *. split; [reflexivity|exact H].
  - destruct l2 as [|b l2].
    + right. right. exists a, l1. simpl in *. split; [reflexivity|].
      now symmetry.
    + simpl in H. inversion H as [[Hab Hrest]]. subst b.
      destruct (IH l2 Hrest) as [->|[[w [t [-> Hc]]]|[w [t [-> Hc]]]]].
      * now left.
      * right. left. exists w, t. split; [reflexivity|assumption].
      * right. right. exists w, t. split; [reflexivity|assumption].
Qed.

Lemma greedy_first_line fs l1 r1 l2 r2 :
  l1 <> [] ->
  Forall (fun l => l <> []) r1 ->
  breaksForced measureText fs (l1 :: r1) ->
  appendsFit measureText fs l2 ->
  forall w t, l2 = l1 ++ w :: t -> concat r1 = w :: t ++ concat r2 -> False.
Proof.
  intros Hne Hr1 Hbr Hfit w t Hl2 Hc.
  destruct r1 as [|l r1]; [discriminate|].
  inversion Hr1 as [|? ? Hl _]; subst.
  destruct l as [|w' l]; [contradiction|].
  simpl in Hc. inversion Hc; subst w'.
  destruct Hbr as [Hbr _].
  pose proof (Hfit l1 w t eq_refl Hne) as Hle.
  exact (Qlt_not_le _ _ Hbr Hle).
Qed.

(** The four conditions of [greedyLayout] leave one layout only. *)
Lemma greedyLayout_unique fs words ls1 ls2 :
  greedyLayout measureText fs words ls1 ->
  greedyLayout measureText fs words ls2 ->
  ls1 = ls2.
Proof.
  revert words ls2. induction ls1 as [|l1 r1 IH]; intros words ls2
    [Hc1 [Hn1 [Hf1 Hb1]]] [Hc2 [Hn2 [Hf2 Hb2]]].
  - simpl in Hc1. subst words. destruct ls2 as [|l2 r2]; [reflexivity|].
    inversion Hn2 as [|? ? Hl _]; subst.
    destruct l2; [contradiction|discriminate].
  - inversion Hn1 as [|? ? Hl1 Hr1]; subst.
    inversion Hf1 as [|? ? Hfl1 Hfr1]; subst.
    destruct ls2 as [|l2 r2].
    + simpl in Hc2. destruct l1; [contradiction|discriminate].
    + inversion Hn2 as [|? ? Hl2 Hr2]; subst.
      inversion Hf2 as [|? ? Hfl2 Hfr2]; subst.
      simpl in Hc2.
      destruct (prefix_cases l1 l2 (concat r1) (concat r2) (eq_sym Hc2))
        as [->|[[w [t [Hl Hc]]]|[w [t [Hl Hc]]]]].
      * f_equal. apply (IH (concat r2)).
        -- split; [now apply app_inv_head in Hc2|].
           split; [assumption|]. split; [assumption|].
           destruct Hb1 as [_ Hb1]. exact Hb1.
        -- split; [reflexivity|]. split; [assumption|].
           split; [assumption|]. destruct Hb2 as [_ Hb2]. exact Hb2.
      * exfalso.
        exact (greedy_first_line fs l1 r1 l2 r2 Hl1 Hr1 Hb1 Hfl2 w t Hl Hc).
      * exfalso.
        exact (greedy_first_line fs l2 r2 l1 r1 Hl2 Hr2 Hb2 Hfl1 w t Hl Hc).
Qed.

(** C3. When one of the words is wider than the usable width at every
    size from 120 down to the minimum 10, the solver still returns a
    solution: all 55 sizes are given up and the fallback at size 10 with
    line height 12 is returned, with no condition on the height of its
    block.  Its lines are the greedy layout of the words at size 10: they
    hold the words in order, none is empty, a word stands behind others on
    a line only where it fitted, and a line ends only where the next word
    did not fit; no other layout has these properties.  It is the packing
    of the candidate sizes without the test on oversized words: at a size
    where no word is oversized the two loops build the same lines. *)
Theorem oversized_word_falls_back (words : list jsstring) (w : jsstring) :
  In w words ->
  (forall fs, (10 <= fs <= 120)%Z -> usableWidth < measureText fs w) ->
  let sol := findOptimalFontSize measureText words in
  sol = mkSolution 10 (pushLastLine (packForced measureText 10 words emptyPack))
                   12 /\
  fontSize sol = 10%Z /\ lineHeight sol = 12 /\
  tried (searchFrom measureText words 120) = descending 120 55 /\
  greedyLayout measureText 10 words (lines sol) /\
  (forall ls, greedyLayout measureText 10 words ls -> ls = lines sol) /\
  (forall fs, (forall v, In v words -> measureText fs v <= usableWidth) ->
     packChecked measureText fs words emptyPack
     = (packForced measureText fs words emptyPack, true)).
Proof.
  intros Hin Hbig.
  assert (Hrej : forall s, (10 < s <= 120)%Z ->
                   tryFontSize measureText words s = None).
  { intros s Hs. apply tryFontSize_oversized. exists w.
    split; [assumption|]. apply Hbig. lia. }
  assert (Hsol : findOptimalFontSize measureText words
                 = fallbackLayout measureText words).
  { unfold findOptimalFontSize.
    exact (searchFrom_all_rejected measureText words 120 Hrej). }
  cbv zeta. rewrite Hsol. unfold fallbackLayout. cbn [fontSize lineHeight lines].
  split; [reflexivity|]. split; [reflexivity|]. split; [reflexivity|].
  split; [|split; [|split]].
  - assert (Hgen : forall n fs, (fs <= 120)%Z ->
              (fs - 2 * Z.of_nat n = 10)%Z ->
              tried (searchFrom measureText words fs) = descending fs n).
    { induction n as [|n IH]; intros fs Hle Hn.
      - rewrite searchFrom_stop by lia. reflexivity.
      - rewrite searchFrom_reject; [|lia|apply Hrej; lia]. simpl.
        rewrite descending_S. f_equal. apply IH; lia. }
    apply Hgen; lia.
  - apply packForced_greedyLayout.
  - intros ls Hls.
    exact (greedyLayout_unique 10 words ls _ Hls
             (packForced_greedyLayout 10 words)).
  - intros fs Hfit. apply packChecked_fits.
    intros v Hv. rewrite maxWidth_usable. now apply Hfit.
Qed.

End FallbackLayout.

(** Two short words share the first line, a word of one hundred letters,
    500 wide at size 10, takes the second: the fallback. *)
Lemma fallback_witness :
  findOptimalFontSize sampleMeasure [lit "see"; lit "it"; longWord]
  = mkSolution 10 [[lit "see"; lit "it"]; [longWord]] 12
  /\ greedyLayout sampleMeasure 10 [lit "see"; lit "it"; longWord]
                  [[lit "see"; lit "it"]; [longWord]].
Proof.
  destruct (oversized_word_falls_back sampleMeasure
              [lit "see"; lit "it"; longWord] longWord)
    as [Hsol [_ [_ [_ [Hg _]]]]].
  - right. right. left. reflexivity.
  - intros fs Hfs. unfold sampleMeasure, usableWidth, Qlt. simpl. lia.
  - split; [exact Hsol|exact Hg].
Defined.

(** ** The result of the search, case by case *)
Section SearchCases.

Variable measureText : Z -> jsstring -> Q.

Lemma searchFrom_dichotomy words fs :
  (exists k : nat,
     (10 < fs - 2 * Z.of_nat k)%Z /\
     fitsAt measureText (fs - 2 * Z.of_nat k) words /\
     (forall j, (j < k)%nat ->
        ~ fitsAt measureText (fs - 2 * Z.of_nat j) words) /\
     solution (searchFrom measureText words fs)
     = mkSolution (fs - 2 * Z.of_nat k)
                  (greedyLines measureText (fs - 2 * Z.of_nat k) words)
                  (inject_Z (fs - 2 * Z.of_nat k) * (12 # 10)))
  \/
  ((forall k : nat, (10 < fs - 2 * Z.of_nat k)%Z ->
      ~ fitsAt measureText (fs - 2 * Z.of_nat k) words) /\
   solution (searchFrom measureText words fs)
   = fallbackLayout measureText words).
Proof.
  induction fs as [fs Hle | fs Hgt IH] using search_ind.
  - right. split; [intros k Hk; lia|]. now rewrite searchFrom_stop.
  - destruct (tryFontSize measureText words fs) as [sol|] eqn:E.
    + left. exists 0%nat. rewrite (searchFrom_accept _ _ _ _ Hgt E).
      apply tryFontSize_Some in E as [Hfit ->].
      replace (fs - 2 * Z.of_nat 0)%Z with fs by lia.
      split; [assumption|]. split; [assumption|].
      split; [intros j Hj; lia|reflexivity].
    + assert (Hno : ~ fitsAt measureText fs words).
      { intros Hfit.
        assert (Hs : tryFontSize measureText words fs
                     = Some (mkSolution fs (greedyLines measureText fs words)
                                        (inject_Z fs * (12 # 10))))
          by (apply tryFontSize_Some; split; [assumption|reflexivity]).
        congruence. }
      rewrite (searchFrom_reject _ _ _ Hgt E). cbn [solution].
      destruct IH as [[k [Hk [Hfit [Hrej Hsol]]]]|[Hrej Hsol]].
      * left. exists (S k).
        replace (fs - 2 * Z.of_nat (S k))%Z
          with (fs - 2 - 2 * Z.of_nat k)%Z by lia.
        split; [lia|]. split; [assumption|].
        split; [|assumption].
        intros j Hj. destruct j as [|j].
        -- now replace (fs - 2 * Z.of_nat 0)%Z with fs by lia.
        -- replace (fs - 2 * Z.of_nat (S j))%Z
             with (fs - 2 - 2 * Z.of_nat j)%Z by lia.
           apply Hrej. lia.
      * right. split; [|assumption]. intros k Hk. destruct k as [|k].
        -- now replace (fs - 2 * Z.of_nat 0)%Z with fs by lia.
        -- replace (fs - 2 * Z.of_nat (S k))%Z
             with (fs - 2 - 2 * Z.of_nat k)%Z by lia.
           apply Hrej. lia.
Qed.

(** X4. What the solver returns, in full: either the greedy layout at
    the largest of the sizes 120, 118, ..., 12 that fits, or, when none of
    these 55 sizes fits, the fallback.  The fallback is never returned
    while a candidate size fits. *)
Theorem solver_result_cases (words : list jsstring) :
  let sol := findOptimalFontSize measureText words in
  (exists k : nat,
     (k < 55)%nat /\
     fitsAt measureText (120 - 2 * Z.of_nat k) words /\
     (forall j, (j < k)%nat ->
        ~ fitsAt measureText (120 - 2 * Z.of_nat j) words) /\
     sol = mkSolution (120 - 2 * Z.of_nat k)
                      (greedyLines measureText (120 - 2 * Z.of_nat k) words)
                      (inject_Z (120 - 2 * Z.of_nat k) * (12 # 10)))
  \/
  ((forall k : nat, (k < 55)%nat ->
      ~ fitsAt measureText (120 - 2 * Z.of_nat k) words) /\
   sol = fallbackLayout measureText words).
Proof.
  cbv zeta. unfold findOptimalFontSize.
  destruct (searchFrom_dichotomy words 120)
    as [[k [Hk [Hfit [Hrej Hsol]]]]|[Hrej Hsol]].
  - left. exists k. split; [lia|]. split; [assumption|].
    split; assumption.
  - right. split; [|assumption]. intros k Hk. apply Hrej. lia.
Qed.

(** X5. The font size of every returned solution is even: it is one of
    the numbers 120, 118, ..., 12, 10, whatever the words and the
    measurements. *)
Theorem fontSize_even (words : list jsstring) :
  exists k : nat,
    (k <= 55)%nat /\
    fontSize (findOptimalFontSize measureText words)
    = (120 - 2 * Z.of_nat k)%Z.
Proof.
  unfold findOptimalFontSize.
  destruct (searchFrom_dichotomy words 120)
    as [[k [Hk [_ [_ Hsol]]]]|[_ Hsol]]; rewrite Hsol; simpl.
  - exists k. split; [lia|reflexivity].
  - exists 55%nat. split; [lia|reflexivity].
Qed.

End SearchCases.

(** ** Tokens: [trim], [split] and [join] *)

Lemma forallb_rev_eq {A} (f : A -> bool) (l : list A) :
  forallb f (rev l) = forallb f l.
Proof.
  induction l as [|a l IH]; simpl; [reflexivity|].
  rewrite forallb_app, IH. simpl. rewrite andb_true_r. apply andb_comm.
Qed.

Lemma splitWsFrom_noWhiteSpace (s cur : jsstring) (inSep : bool) :
  noWhiteSpace cur -> Forall noWhiteSpace (splitWsFrom cur inSep s).
Proof.
  revert cur inSep. induction s as [|c s IH]; intros cur inSep Hcur; simpl.
  - constructor; [|constructor]. unfold noWhiteSpace in *.
    now rewrite forallb_rev_eq.
  - destruct (isWhiteSpace c) eqn:Ec.
    + destruct inSep; [now apply IH|].
      constructor.
      * unfold noWhiteSpace in *. now rewrite forallb_rev_eq.
      * now apply IH.
    + apply IH. unfold noWhiteSpace in *. simpl. now rewrite Ec.
Qed.

Lemma splitWsFrom_pieces_nonempty (s cur : jsstring) (inSep : bool) :
  (forall p c, s = p ++ [c] -> isWhiteSpace c = false) ->
  (if inSep then s <> []
   else cur <> [] \/ exists c r, s = c :: r /\ isWhiteSpace c = false) ->
  Forall (fun w => w <> []) (splitWsFrom cur inSep s).
Proof.
  revert cur inSep. induction s as [|c s IH]; intros cur inSep Hend Hst.
  - simpl. destruct inSep; [contradiction|].
    destruct Hst as [Hcur|[c [r [Habs _]]]]; [|discriminate].
    constructor; [|constructor]. intros Hrev. apply Hcur.
    apply (f_equal (@rev N)) in Hrev. now rewrite rev_involutive in Hrev.
  - assert (Hend' : forall p c', s = p ++ [c'] -> isWhiteSpace c' = false).
    { intros p c' Hs. apply (Hend (c :: p) c'). simpl. now f_equal. }
    simpl. destruct (isWhiteSpace c) eqn:Ec.
    + assert (Hs : s <> []).
      { intros ->. specialize (Hend [] c eq_refl). congruence. }
      destruct inSep.
      * apply IH; assumption.
      * destruct Hst as [Hcur|[c' [r [Heq Hc']]]].
        -- constructor; [|apply IH; assumption].
           intros Hrev. apply Hcur.
           apply (f_equal (@rev N)) in Hrev.
           now rewrite rev_involutive in Hrev.
        -- inversion Heq; subst. congruence.
    + apply IH; [assumption|]. left. discriminate.
Qed.

Lemma trimStart_head (s : jsstring) c r :
  trimStart s = c :: r -> isWhiteSpace c = false.
Proof.
  induction s as [|a s IH]; simpl; [discriminate|].
  destruct (isWhiteSpace a) eqn:Ea; [assumption|].
  intros H. inversion H; subst. assumption.
Qed.

Lemma trimStart_suffix (s : jsstring) :
  exists p, s = p ++ trimStart s /\ forallb isWhiteSpace p = true.
Proof.
  induction s as [|a s [p [Hs Hp]]]; simpl.
  - now exists [].
  - destruct (isWhiteSpace a) eqn:Ea.
    + exists (a :: p). simpl. rewrite Ea, Hp. split; [now f_equal|reflexivity].
    + now exists [].
Qed.

Lemma trim_starts (s : jsstring) c r :
  trim s = c :: r -> isWhiteSpace c = false.
Proof.
  unfold trim. intros H.
  destruct (trimStart_suffix (rev (trimStart s))) as [q [Hq _]].
  apply (f_equal (@rev N)) in Hq.
  rewrite rev_involutive, rev_app_distr, H in Hq.
  simpl in Hq. now apply (trimStart_head s c (r ++ rev q)).
Qed.

Lemma trim_ends (s : jsstring) p c :
  trim s = p ++ [c] -> isWhiteSpace c = false.
Proof.
  unfold trim. intros H.
  apply (f_equal (@rev N)) in H.
  rewrite rev_involutive, rev_app_distr in H. simpl in H.
  now apply (trimStart_head _ _ _ H).
Qed.

Lemma trimStart_nil (s : jsstring) :
  trimStart s = [] -> forallb isWhiteSpace s = true.
Proof.
  induction s as [|a s IH]; simpl; [reflexivity|].
  destruct (isWhiteSpace a); [assumption|discriminate].
Qed.

Lemma trim_nil (s : jsstring) :
  trim s = [] -> forallb isWhiteSpace s = true.
Proof.
  unfold trim. intros H.
  apply (f_equal (@rev N)) in H. rewrite rev_involutive in H. simpl in H.
  apply trimStart_nil in H. rewrite forallb_rev_eq in H.
  destruct (trimStart s) as [|c r] eqn:E.
  - now apply trimStart_nil.
  - apply trimStart_head in E. simpl in H.
    apply andb_true_iff in H as [H _]. congruence.
Qed.

(** X6. The words [createSticker] lays out contain no whitespace, and
    unless the text is blank none of them is empty; a blank text gives
    exactly one empty word. *)
Theorem words_are_clean (text : jsstring) :
  Forall noWhiteSpace (splitWs (trim text)) /\
  (forallb isWhiteSpace text = false ->
   Forall (fun w => w <> []) (splitWs (trim text))) /\
  (forallb isWhiteSpace text = true -> splitWs (trim text) = [ [] ]).
Proof.
  split; [|split].
  - apply splitWsFrom_noWhiteSpace. reflexivity.
  - intros Hnb. unfold splitWs. apply splitWsFrom_pieces_nonempty.
    + intros p c. apply trim_ends.
    + right. destruct (trim text) as [|c r] eqn:E.
      * apply trim_nil in E. congruence.
      * exists c, r. split; [reflexivity|]. now apply (trim_starts text c r).
  - intros Hb. now rewrite (trim_whitespace text Hb).
Qed.

Lemma splitWsFrom_word (w cur rest : jsstring) (inSep : bool) :
  noWhiteSpace w -> w <> [] \/ inSep = false ->
  splitWsFrom cur inSep (w ++ rest) = splitWsFrom (rev w ++ cur) false rest.
Proof.
  revert cur inSep. induction w as [|c w IH]; intros cur inSep Hw Hne.
  - destruct Hne as [Hne| ->]; [contradiction|reflexivity].
  - unfold noWhiteSpace in Hw. simpl in Hw.
    apply andb_true_iff in Hw as [Hc Hw]. apply negb_true_iff in Hc.
    simpl. rewrite Hc. rewrite (IH (c :: cur) false Hw (or_intror eq_refl)).
    now rewrite <- app_assoc.
Qed.

Lemma splitWsFrom_join (ws : list jsstring) (inSep : bool) :
  ws <> [] ->
  Forall (fun w => w <> [] /\ noWhiteSpace w) ws ->
  splitWsFrom [] inSep (join (lit " ") ws) = ws.
Proof.
  revert inSep. induction ws as [|x ws IH]; intros inSep Hne Hall.
  - contradiction.
  - inversion Hall as [|? ? [Hx Hnx] Hrest]; subst.
    destruct ws as [|y ws].
    + simpl. rewrite <- (app_nil_r x) at 1.
      rewrite (splitWsFrom_word x [] [] inSep Hnx (or_introl Hx)).
      simpl. now rewrite app_nil_r, rev_involutive.
    + cbn [join].
      rewrite (splitWsFrom_word x [] _ inSep Hnx (or_introl Hx)).
      simpl. rewrite app_nil_r, rev_involutive. f_equal.
      apply IH; [discriminate|assumption].
Qed.

(** X7. Joining words with single spaces, as the renderer does for a
    line, and splitting the result again gives the same words back,
    provided the words are not empty and hold no whitespace. *)
Theorem split_join_roundtrip (ws : list jsstring) :
  ws <> [] ->
  Forall (fun w => w <> [] /\ noWhiteSpace w) ws ->
  splitWs (join (lit " ") ws) = ws.
Proof. intros Hne Hall. now apply splitWsFrom_join. Qed.

(** ** Paint calls of the line renderer *)
Section PaintCalls.

Variable measureText : Z -> jsstring -> Q.
Variable parseParts : jsstring -> list jsstring.
Variable fetchText : jsstring -> option jsstring.
Variable loadImage : jsstring -> option Image.

Local Abbreviation drawPart' := (drawPart measureText fetchText loadImage).
Local Abbreviation drawParts' := (drawParts measureText fetchText loadImage).
Local Abbreviation drawTextWithEmoji' :=
  (drawTextWithEmoji measureText parseParts fetchText loadImage).

Lemma drawPart_ops y fs st part :
  exists new,
    ops (fst (drawPart' y fs st part)) = ops (fst st) ++ new /\
    (length new <= 1)%nat /\
    Forall (fun op => opX op = snd st /\ isFillRect op = false) new.
Proof.
  destruct st as [ctx cursorX]. unfold drawPart.
  destruct (startsWith (lit "<img") part).
  - destruct (matchSrc part) as [url|].
    + destruct (loadGlyph _ _ _ _) as [img|]; simpl;
        eexists; (split; [reflexivity|]); split; simpl; try lia;
        constructor; try constructor; split; reflexivity.
    + exists []. simpl. rewrite app_nil_r.
      split; [reflexivity|]. split; [lia|constructor].
  - simpl. eexists. split; [reflexivity|]. split; [simpl; lia|].
    constructor; [split; reflexivity|constructor].
Qed.

Lemma drawParts_ops y fs parts st :
  exists new,
    ops (fst (drawParts' y fs parts st)) = ops (fst st) ++ new /\
    (length new <= length parts)%nat /\
    Forall (fun op => isFillRect op = false) new /\
    ((forall s, 0 <= measureText fs s) -> (0 <= fs)%Z ->
     Forall (fun op => snd st <= opX op) new).
Proof.
  revert st. induction parts as [|p parts IH]; intros st.
  - exists []. simpl. rewrite app_nil_r.
    repeat split; try constructor.
  - unfold drawParts. simpl.
    fold (drawParts' y fs parts (drawPart' y fs st p)).
    destruct (drawPart_ops y fs st p) as [n1 [H1 [L1 F1]]].
    destruct (IH (drawPart' y fs st p)) as [n2 [H2 [L2 [R2 F2]]]].
    exists (n1 ++ n2). rewrite H2, H1, app_assoc.
    split; [reflexivity|]. split; [rewrite length_app; simpl; lia|].
    split.
    + apply Forall_app. split; [|assumption].
      eapply Forall_impl; [|exact F1]. intros op [_ Hr]. exact Hr.
    + intros Hm Hfs. apply Forall_app. split.
      * eapply Forall_impl; [|exact F1]. intros op [Hx _].
        rewrite Hx. apply Qle_refl.
      * eapply Forall_impl; [|exact (F2 Hm Hfs)]. intros op Hop.
        apply Qle_trans with (snd (drawPart' y fs st p)); [|assumption].
        apply drawPart_cursor; assumption.
Qed.

(** X8. Rendering a line only adds paint calls to those the canvas
    already received: at most one per part, none of them a rectangle
    fill, and, for non-negative measurements and font size, none of them
    left of the start position. *)
Theorem paint_calls_appended (ctx : Ctx) (text : jsstring) (x y : Q)
        (fontSize : Z) :
  exists new,
    ops (fst (drawTextWithEmoji' ctx text x y fontSize)) = ops ctx ++ new /\
    (length new <= length (parseParts text))%nat /\
    Forall (fun op => isFillRect op = false) new /\
    ((forall s, 0 <= measureText fontSize s) -> (0 <= fontSize)%Z ->
     Forall (fun op => x <= opX op) new).
Proof.
  unfold drawTextWithEmoji.
  apply (drawParts_ops y fontSize (parseParts text) (ctx, x)).
Qed.

Lemma drawParts_text y fs parts st :
  Forall (fun p => startsWith (lit "<img") p = false) parts ->
  snd (drawParts' y fs parts st) == snd st + partsWidth measureText fs parts /\
  map opText (ops (fst (drawParts' y fs parts st)))
  = map opText (ops (fst st)) ++ map Some parts.
Proof.
  revert st. induction parts as [|p parts IH]; intros st Hall.
  - simpl. rewrite app_nil_r. split; [unfold partsWidth; simpl; lra|].
    reflexivity.
  - inversion Hall as [|? ? Hp Hrest]; subst.
    unfold drawParts. simpl.
    fold (drawParts' y fs parts (drawPart' y fs st p)).
    destruct (IH (drawPart' y fs st p) Hrest) as [Hc Ho].
    destruct st as [ctx cursorX]. unfold drawPart in *. rewrite Hp in *.
    simpl in *. split.
    + rewrite Hc. unfold partsWidth. simpl. lra.
    + rewrite Ho, map_app. simpl. now rewrite <- app_assoc.
Qed.

(** X9. For a line without image part the returned cursor is the start
    position plus the summed measured widths of the parts, and the line
    is painted as one [fillText] per part, in order. *)
Theorem pure_text_cursor (ctx : Ctx) (text : jsstring) (x y : Q)
        (fontSize : Z) :
  Forall (fun p => startsWith (lit "<img") p = false) (parseParts text) ->
  snd (drawTextWithEmoji' ctx text x y fontSize)
  == x + partsWidth measureText fontSize (parseParts text) /\
  map opText (ops (fst (drawTextWithEmoji' ctx text x y fontSize)))
  = map opText (ops ctx) ++ map Some (parseParts text).
Proof.
  intros Hall. unfold drawTextWithEmoji.
  apply (drawParts_text y fontSize (parseParts text) (ctx, x) Hall).
Qed.

End PaintCalls.

(** ** The source of an image part *)

Lemma spanNoQuote_spec (s run rest : jsstring) :
  spanNoQuote s = (run, rest) ->
  s = run ++ rest /\ noQuote run /\
  (forall q r, rest = q :: r -> code_eqb q dquote = true).
Proof.
  revert run rest. induction s as [|c s IH]; intros run rest H; simpl in H.
  - inversion H; subst. repeat split. intros q r Hq. discriminate.
  - destruct (code_eqb c dquote) eqn:Ec.
    + inversion H; subst. repeat split.
      intros q r Hq. inversion Hq; subst. assumption.
    + destruct (spanNoQuote s) as [run' rest'] eqn:E.
      inversion H; subst.
      destruct (IH run' rest eq_refl) as [Hs [Hn Hq]].
      split; [simpl; now f_equal|]. split; [|assumption].
      unfold noQuote in *. simpl. now rewrite Ec.
Qed.

Lemma spanNoQuote_run (url post : jsstring) :
  noQuote url ->
  spanNoQuote (url ++ dquote :: post) = (url, dquote :: post).
Proof.
  induction url as [|c url IH]; intros H.
  - reflexivity.
  - unfold noQuote in H. simpl in H. apply andb_true_iff in H as [Hc Hu].
    apply negb_true_iff in Hc. simpl. rewrite Hc.
    now rewrite (IH Hu).
Qed.

(** The match at the head of the string, as [matchSrc] tries it. *)
Lemma matchSrc_unfold (s : jsstring) :
  matchSrc s
  = match
      (if startsWith (lit "src=" ++ [dquote]) s then
         match spanNoQuote (skipn 5 s) with
         | ((_ :: _) as url, q :: _) =>
             if code_eqb q dquote then Some url else None
         | _ => None
         end
       else None)
    with
    | Some url => Some url
    | None => match s with
              | [] => None
              | _ :: r => matchSrc r
              end
    end.
Proof. destruct s; reflexivity. Qed.

(** X10. What [matchSrc] returns is a source that stands in the part: a
    non-empty text without double quote, found between [src=], a double
    quote, and a closing double quote. *)
Theorem matchSrc_sound (s url : jsstring) :
  matchSrc s = Some url ->
  url <> [] /\ noQuote url /\
  exists pre post,
    s = pre ++ lit "src=" ++ [dquote] ++ url ++ [dquote] ++ post.
Proof.
  induction s as [|c s IH]; intros H; rewrite matchSrc_unfold in H.
  - simpl in H. discriminate.
  - destruct (startsWith (lit "src=" ++ [dquote]) (c :: s)) eqn:Est.
    + destruct (spanNoQuote (skipn 5 (c :: s))) as [run rest] eqn:Esp.
      destruct run as [|u run];
        [|destruct rest as [|q rest];
          [|destruct (code_eqb q dquote) eqn:Eq]].
      4: destruct (IH H) as [Hne [Hnq [pre [post Hs]]]];
         split; [assumption|]; split; [assumption|];
         exists (c :: pre), post; simpl; now f_equal.
      2: destruct (IH H) as [Hne [Hnq [pre [post Hs]]]];
         split; [assumption|]; split; [assumption|];
         exists (c :: pre), post; simpl; now f_equal.
      1: destruct (IH H) as [Hne [Hnq [pre [post Hs]]]];
         split; [assumption|]; split; [assumption|];
         exists (c :: pre), post; simpl; now f_equal.
      inversion H; subst.
      apply spanNoQuote_spec in Esp as [Hsk [Hnq _]].
      unfold code_eqb in Eq. apply N.eqb_eq in Eq. subst q.
      split; [discriminate|]. split; [assumption|].
      exists [], rest. apply startsWith_split in Est.
      change (length (lit "src=" ++ [dquote])) with 5%nat in Est.
      rewrite Est at 1. rewrite Hsk. simpl. reflexivity.
    + destruct (IH H) as [Hne [Hnq [pre [post Hs]]]].
      split; [assumption|]. split; [assumption|].
      exists (c :: pre), post. simpl. now f_equal.
Qed.

Lemma startsWith_prefix (p q s : jsstring) :
  startsWith (p ++ q) s = true -> startsWith p s = true.
Proof.
  revert s. induction p as [|a p IH]; intros s H; simpl in *.
  - reflexivity.
  - destruct s as [|b s]; [discriminate|].
    apply andb_true_iff in H as [Hab Hp]. rewrite Hab. simpl.
    now apply IH.
Qed.

Lemma src_no_straddle (p t : jsstring) :
  p <> [] ->
  startsWith (lit "src=") p = false ->
  startsWith (lit "src=") (p ++ 115%N :: t) = false.
Proof.
  intros Hne H.
  destruct p as [|a [|b [|c [|d p]]]]; [contradiction| | | |];
    simpl in *; assumption.
Qed.

(** X11. From a part in which [src=], a double quote, a non-empty source
    without double quote and a closing double quote come after a text
    holding no [src=], [matchSrc] returns that source. *)
Theorem matchSrc_complete (pre url post : jsstring) :
  url <> [] -> noQuote url ->
  includes (lit "src=") pre = false ->
  matchSrc (pre ++ lit "src=" ++ [dquote] ++ url ++ [dquote] ++ post)
  = Some url.
Proof.
  intros Hne Hnq. induction pre as [|a pre IH]; intros Hpre.
  - rewrite matchSrc_unfold.
    rewrite (startsWith_app (lit "src=" ++ [dquote]) (url ++ [dquote] ++ post)
             : startsWith (lit "src=" ++ [dquote])
                 ([] ++ lit "src=" ++ [dquote] ++ url ++ [dquote] ++ post)
               = true).
    change (skipn 5 ([] ++ lit "src=" ++ [dquote] ++ url ++ [dquote] ++ post))
      with (url ++ dquote :: post).
    rewrite (spanNoQuote_run url post Hnq).
    destruct url as [|u url]; [contradiction|]. reflexivity.
  - cbn [includes] in Hpre. apply orb_false_iff in Hpre as [Hst Hin].
    rewrite matchSrc_unfold.
    assert (Hno : startsWith (lit "src=" ++ [dquote])
                    ((a :: pre) ++ lit "src=" ++ [dquote] ++ url ++
                     [dquote] ++ post) = false).
    { destruct (startsWith (lit "src=" ++ [dquote]) _) eqn:E;
        [|reflexivity].
      apply startsWith_prefix in E.
      change (lit "src=" ++ [dquote] ++ url ++ [dquote] ++ post)
        with (115%N :: (lit "rc=" ++ [dquote] ++ url ++ [dquote] ++ post))
        in E.
      rewrite src_no_straddle in E; [discriminate|discriminate|assumption]. }
    rewrite Hno. simpl. apply IH. assumption.
Qed.

(** ** [processSVG] once more *)

Lemma replace_absent (p r s : jsstring) :
  includes p s = false -> replace p r s = s.
Proof.
  induction s as [|c s IH]; intros H.
  - simpl in H. rewrite orb_false_r in H. simpl. now rewrite H.
  - cbn [includes] in H. apply orb_false_iff in H as [Hst Hin].
    cbn [replace]. rewrite Hst. f_equal. now apply IH.
Qed.

(** X12. [processSVG] is idempotent: applied to its own result it changes
    nothing, so a markup is never given the attributes twice. *)
Theorem processSVG_idempotent (svgString : jsstring) (size : Z) :
  processSVG (processSVG svgString size) size = processSVG svgString size.
Proof.
  destruct (negb (includes (lit "width=") svgString)
            && negb (includes (lit "height=") svgString)) eqn:G.
  - destruct (includes (lit "<svg") svgString) eqn:Esvg.
    + destruct (replace_first (lit "<svg") (svgOpenTag size) svgString Esvg)
        as [pre [post [_ [_ Hrep]]]].
      assert (Hout : processSVG svgString size
                     = pre ++ svgOpenTag size ++ post).
      { unfold processSVG. now rewrite G. }
      rewrite Hout. unfold processSVG.
      rewrite (includes_app_r _ pre _
                 (includes_app_l _ _ post (svgOpenTag_width size))).
      reflexivity.
    + assert (Hout : processSVG svgString size = svgString).
      { unfold processSVG. rewrite G. now apply replace_absent. }
      now rewrite !Hout.
  - assert (Hout : processSVG svgString size = svgString).
    { unfold processSVG. now rewrite G. }
    now rewrite !Hout.
Qed.

(** ** The canvas that is encoded *)
Section CanvasContent.

Variable measureText : Z -> jsstring -> Q.
Variable parseParts : jsstring -> list jsstring.
Variable fetchText : jsstring -> option jsstring.
Variable loadImage : jsstring -> option Image.
Variable encodeWebp : Ctx -> option (list N).

Local Abbreviation renderLines' :=
  (renderLines measureText parseParts fetchText loadImage).
Local Abbreviation createSticker' :=
  (createSticker measureText parseParts fetchText loadImage encodeWebp).

Lemma paint_ops_of_line fs lh startY line (i : nat) ctx :
  exists new,
    ops (fst (drawTextWithEmoji measureText parseParts fetchText loadImage
                ctx (join (lit " ") line) margin
                (startY + inject_Z (Z.of_nat i) * lh) fs))
    = ops ctx ++ new /\
    Forall (fun op => isFillRect op = false) new /\
    ((forall s, 0 <= measureText fs s) -> (0 <= fs)%Z ->
     Forall (fun op => margin <= opX op) new).
Proof.
  unfold drawTextWithEmoji.
  destruct (drawParts_ops measureText fetchText loadImage
              (startY + inject_Z (Z.of_nat i) * lh) fs
              (parseParts (join (lit " ") line)) (ctx, margin))
    as [new [H [_ [R F]]]].
  exists new. split; [exact H|]. split; [exact R|exact F].
Qed.

Lemma renderLines_ops fs lh startY ls : forall i ctx,
  exists new,
    ops (renderLines' fs lh startY i ls ctx) = ops ctx ++ new /\
    Forall (fun op => isFillRect op = false) new /\
    ((forall s, 0 <= measureText fs s) -> (0 <= fs)%Z ->
     Forall (fun op => margin <= opX op) new).
Proof.
  induction ls as [|line ls IH]; intros i ctx.
  - exists []. simpl. rewrite app_nil_r. repeat split; constructor.
  - cbn [renderLines].
    destruct (paint_ops_of_line fs lh startY line i ctx)
      as [n1 [H1 [R1 F1]]].
    destruct (drawTextWithEmoji measureText parseParts fetchText loadImage
                ctx (join (lit " ") line) margin
                (startY + inject_Z (Z.of_nat i) * lh) fs) as [ctx' c] eqn:E.
    simpl in H1.
    destruct (IH (S i) ctx') as [n2 [H2 [R2 F2]]].
    exists (n1 ++ n2). rewrite H2, H1, app_assoc.
    split; [reflexivity|]. split.
    + apply Forall_app. split; assumption.
    + intros Hm Hfs. apply Forall_app. split; [now apply F1|now apply F2].
Qed.

Lemma withOps_same (c : Ctx) : withOps c (ops c) = c.
Proof. destruct c. reflexivity. Qed.

Lemma settled_withOps fs c l : settled fs c -> settled fs (withOps c l).
Proof. intros H. exact H. Qed.

(** On a context with the text settings in force, a part adds paint
    calls and moves the cursor in a way that does not depend on the paint
    calls made before, and leaves the settings as they are. *)
Lemma drawPart_frame fs y x p :
  exists n x', forall c,
    settled fs c ->
    drawPart measureText fetchText loadImage y fs (c, x) p
    = (withOps c (ops c ++ n), x').
Proof.
  unfold drawPart.
  destruct (startsWith (lit "<img") p).
  - destruct (matchSrc p) as [url|].
    + destruct (loadGlyph _ _ _ _) as [img|].
      * eexists. eexists. intros c _. reflexivity.
      * exists [FillText placeholderBox x y (BoldNarrow fs) (lit "#000")],
          (x + inject_Z fs * (8 # 10)).
        intros [f st al bl o] [Hf [Hs Hb]].
        simpl in *. subst. reflexivity.
    + exists [], x. intros [f st al bl o] _. unfold withOps. simpl.
      now rewrite app_nil_r.
  - exists [FillText p x y (BoldNarrow fs) (lit "#000")],
      (x + measureText fs p).
    intros [f st al bl o] [Hf [Hs Hb]].
    simpl in *. subst. reflexivity.
Qed.

Lemma drawParts_frame fs y parts : forall x,
  exists n x', forall c,
    settled fs c ->
    drawParts measureText fetchText loadImage y fs parts (c, x)
    = (withOps c (ops c ++ n), x').
Proof.
  induction parts as [|p parts IH]; intros x.
  - exists [], x. intros c _. simpl. now rewrite app_nil_r, withOps_same.
  - destruct (drawPart_frame fs y x p) as [n1 [x1 H1]].
    destruct (IH x1) as [n2 [x2 H2]].
    exists (n1 ++ n2), x2. intros c Hc.
    change (drawParts measureText fetchText loadImage y fs (p :: parts)
                      (c, x))
      with (drawParts measureText fetchText loadImage y fs parts
              (drawPart measureText fetchText loadImage y fs (c, x) p)).
    rewrite (H1 c Hc).
    rewrite (H2 _ (settled_withOps fs c _ Hc)).
    unfold withOps. simpl. now rewrite app_assoc.
Qed.

Lemma textCtx_settled fs : settled fs (textCtx fs).
Proof. repeat split. Qed.

Lemma drawTextWithEmoji_frame fs text x y c :
  settled fs c ->
  fst (drawTextWithEmoji measureText parseParts fetchText loadImage
         c text x y fs)
  = withOps c
      (ops c ++
       ops (fst (drawTextWithEmoji measureText parseParts fetchText loadImage
                   (textCtx fs) text x y fs))).
Proof.
  intros Hc. unfold drawTextWithEmoji.
  destruct (drawParts_frame fs y (parseParts text) x) as [n [x' H]].
  rewrite (H c Hc), (H _ (textCtx_settled fs)). reflexivity.
Qed.

Lemma renderLines_linesOps fs lh startY ls : forall i ctx,
  settled fs ctx ->
  ops (renderLines' fs lh startY i ls ctx)
  = ops ctx ++
    linesOps measureText parseParts fetchText loadImage fs lh startY i ls.
Proof.
  induction ls as [|line ls IH]; intros i ctx Hc.
  - simpl. now rewrite app_nil_r.
  - cbn [renderLines linesOps].
    pose proof (drawTextWithEmoji_frame fs (join (lit " ") line) margin
                  (startY + inject_Z (Z.of_nat i) * lh) ctx Hc) as Hf.
    destruct (drawTextWithEmoji measureText parseParts fetchText loadImage
                ctx (join (lit " ") line) margin
                (startY + inject_Z (Z.of_nat i) * lh) fs) as [ctx' c] eqn:E.
    simpl in Hf. rewrite Hf.
    rewrite IH by (now apply settled_withOps).
    unfold withOps. simpl. now rewrite app_assoc.
Qed.

(** X13. When a sticker is sent, what was encoded is the canvas of this
    call.  Its paint calls are the white background rectangle over the
    whole canvas and then, line after line of the solver's solution for
    the words of the text, the paint calls [drawTextWithEmoji] makes for
    that line joined with spaces, at the left margin and on the baseline
    [margin + fontSize + index * lineHeight]; nothing else.  None of the
    calls after the first is a rectangle and, for non-negative
    measurements, none is left of the margin. *)
Theorem sent_canvas_content (text : jsstring) (sol : LayoutSolution)
        (ctx : Ctx) (webp : list N) :
  createSticker' text = StickerSent sol ctx webp ->
  let lineCalls :=
    linesOps measureText parseParts fetchText loadImage
             (fontSize sol) (lineHeight sol)
             (margin + inject_Z (fontSize sol)) 0 (lines sol) in
  sol = findOptimalFontSize measureText (splitWs (trim text)) /\
  encodeWebp ctx = Some webp /\
  ops ctx = FillRect 0 0 canvasWidth canvasHeight (lit "#fff") :: lineCalls /\
  Forall (fun op => isFillRect op = false) lineCalls /\
  ((forall fs s, (0 <= fs)%Z -> 0 <= measureText fs s) ->
   Forall (fun op => margin <= opX op) lineCalls).
Proof.
  unfold createSticker.
  destruct (length (splitWs (trim text)) =? 0)%nat; [discriminate|].
  set (sol0 := findOptimalFontSize measureText (splitWs (trim text))).
  set (ctx0 := setFont _ _).
  assert (Hset : settled (fontSize sol0) ctx0) by (repeat split).
  destruct (renderLines_ops (fontSize sol0) (lineHeight sol0)
              (margin + inject_Z (fontSize sol0)) (lines sol0) 0%nat ctx0)
    as [new [Hops [Hrect Hx]]].
  pose proof (renderLines_linesOps (fontSize sol0) (lineHeight sol0)
                (margin + inject_Z (fontSize sol0)) (lines sol0) 0%nat ctx0
                Hset) as Hlines.
  rewrite Hlines in Hops. apply app_inv_head in Hops. subst new.
  destruct (encodeWebp _) as [w|] eqn:Eenc; [|discriminate].
  intros H. inversion H; subst. cbv zeta.
  split; [reflexivity|]. split; [assumption|].
  split; [exact Hlines|]. split; [exact Hrect|].
  intros Hm. apply Hx.
  - intros s. apply Hm.
    pose proof (searchFrom_fontSize_min measureText
                  (splitWs (trim text)) 120) as Hmin.
    unfold sol0, findOptimalFontSize. lia.
  - pose proof (searchFrom_fontSize_min measureText
                  (splitWs (trim text)) 120) as Hmin.
    unfold sol0, findOptimalFontSize. lia.
Qed.

End CanvasContent.

(** ** The commands *)

Lemma replace_prefix (p r t : jsstring) : replace p r (p ++ t) = r ++ t.
Proof.
  assert (H : replace p r (p ++ t) = r ++ skipn (length p) (p ++ t)).
  { destruct (p ++ t) eqn:E; simpl; rewrite <- E, startsWith_app;
      reflexivity. }
  rewrite H. f_equal. rewrite skipn_app, skipn_all, Nat.sub_diag. reflexivity.
Qed.

Lemma truthy_nonempty (s : jsstring) : truthy s = true <-> s <> [].
Proof. destruct s; simpl; split; congruence. Qed.

Lemma trim_not_blank (s : jsstring) :
  trim s <> [] -> forallb isWhiteSpace (trim s) = false.
Proof.
  intros H. destruct (trim s) as [|c r] eqn:E; [contradiction|].
  simpl. now rewrite (trim_starts s c r E).
Qed.

Lemma orElse_truthy (a b : option jsstring) (s : jsstring) :
  a = Some s -> s <> [] -> orElse a b = a.
Proof. intros -> H. apply truthy_nonempty in H. simpl. now rewrite H. Qed.

Lemma orElse_falsy (a b : option jsstring) :
  a = None \/ a = Some [] -> orElse a b = b.
Proof. intros [-> | ->]; reflexivity. Qed.

(** X14. The text the [/mkstr] branch hands to [createSticker] is never
    empty.  When the message has words of its own behind [/mkstr], the
    sticker is made of them, trimmed, reply or not.  When it has none and
    is a reply, a sticker is always made: of the quoted [conversation]
    text if there is one, else of the quoted extended text if there is
    one, else of the default text; the usage message is then never
    sent. *)
Theorem mkstr_text_choice (text : jsstring) (isReply : option Quoted) :
  let own := trim (replace (lit "/mkstr") [] text) in
  (forall s, mkstrBranch text isReply = CallCreateSticker s -> s <> []) /\
  (own <> [] -> mkstrBranch text isReply = CallCreateSticker own) /\
  (forall q, isReply = Some q -> own = [] ->
     (forall c, conversation q = Some c -> c <> [] ->
        mkstrBranch text isReply = CallCreateSticker c) /\
     (conversation q = None \/ conversation q = Some [] ->
        (forall e, extendedText q = Some e -> e <> [] ->
           mkstrBranch text isReply = CallCreateSticker e) /\
        (extendedText q = None \/ extendedText q = Some [] ->
           mkstrBranch text isReply
           = CallCreateSticker (lit "Teks kosong")))).
Proof.
  cbv zeta. split; [|split].
  - intros s. unfold mkstrBranch.
    match goal with |- (if truthy ?t then _ else _) = _ -> _ =>
      destruct (truthy t) eqn:E; [|discriminate];
      intros H; inversion H; subst; now apply truthy_nonempty
    end.
  - intros Hown. apply truthy_nonempty in Hown. unfold mkstrBranch.
    destruct isReply as [q|]; rewrite Hown; cbn [negb]; now rewrite ?Hown.
  - intros q -> Hown. unfold mkstrBranch. rewrite Hown.
    change (truthy []) with false. cbn [negb]. split.
    + intros c Hc Hne.
      rewrite (orElse_truthy _ (extendedText q) c Hc Hne), Hc.
      rewrite (orElse_truthy (Some c) _ c eq_refl Hne).
      apply truthy_nonempty in Hne. now rewrite Hne.
    + intros Hconv. rewrite (orElse_falsy _ (extendedText q) Hconv). split.
      * intros e He Hne. rewrite He.
        rewrite (orElse_truthy (Some e) _ e eq_refl Hne).
        apply truthy_nonempty in Hne. now rewrite Hne.
      * intros Hext. now rewrite (orElse_falsy _ _ Hext).
Qed.

(** X15. Sent without reply, [/mkstr] followed by [t] makes a sticker of
    [t] trimmed, or answers with the usage message when [t] is blank; the
    text of the sticker is then never blank and its words are never
    empty. *)
Theorem mkstr_direct (t : jsstring) :
  mkstrBranch (lit "/mkstr" ++ t) None
  = (if truthy (trim t) then CallCreateSticker (trim t) else SendUsage) /\
  (forall s, mkstrBranch (lit "/mkstr" ++ t) None = CallCreateSticker s ->
     forallb isWhiteSpace s = false /\
     Forall (fun w => w <> []) (splitWs (trim s))).
Proof.
  assert (Hb : mkstrBranch (lit "/mkstr" ++ t) None
               = if truthy (trim t) then CallCreateSticker (trim t)
                 else SendUsage).
  { unfold mkstrBranch. now rewrite replace_prefix. }
  split; [exact Hb|]. intros s. rewrite Hb.
  destruct (truthy (trim t)) eqn:E; [|discriminate].
  intros H. inversion H; subst. apply truthy_nonempty in E.
  split; [now apply trim_not_blank|].
  unfold splitWs. apply splitWsFrom_pieces_nonempty.
  - intros p c. apply trim_ends.
  - right. destruct (trim (trim t)) as [|c r] eqn:E2.
    + apply trim_nil in E2. rewrite trim_not_blank in E2; congruence.
    + exists c, r. split; [reflexivity|]. now apply (trim_starts _ c r E2).
Qed.

(** X16. The [/msg] branch: while the AI is not available every [/msg]
    gets the notice; a prompt handed to the AI is never empty; and a
    [/msg] replying to a message with text always asks the AI, with a
    prompt that starts with the quoted text. *)
Theorem msg_prompt (text : jsstring) (isReply : option Quoted) :
  msgBranch false text isReply = Unavailable /\
  (forall p, msgBranch true text isReply = AskAI p -> p <> []) /\
  (forall r, replyTextOf isReply = Some r -> r <> [] ->
     exists rest, msgBranch true text isReply = AskAI (r ++ rest)).
Proof.
  split; [reflexivity|]. split.
  - intros p. unfold msgBranch. cbn [negb].
    match goal with |- (if truthy ?t then _ else _) = _ -> _ =>
      destruct (truthy t) eqn:E; [|discriminate];
      intros H; inversion H; subst; now apply truthy_nonempty
    end.
  - intros r Hr Hne. unfold msgBranch. cbn [negb].
    destruct isReply as [q|]; [|discriminate]. rewrite Hr.
    apply truthy_nonempty in Hne. rewrite Hne.
    destruct (truthy (trim (replace (lit "/msg") [] text))) eqn:E.
    + destruct r; [discriminate|]. simpl. eexists. reflexivity.
    + rewrite Hne. exists []. now rewrite app_nil_r.
Qed.

(** X17. The verse of the day: for every non-negative time difference
    some verse of the list is chosen, the same one for every instant of
    the same day, and the choice repeats every ten days. *)
Theorem dailyVerse_defined (diff : Z) :
  (0 <= diff)%Z ->
  (exists v, dailyVerse diff = Some v /\ In v versesList) /\
  (forall d, (0 <= d)%Z -> (d * oneDay <= diff < (d + 1) * oneDay)%Z ->
     dailyVerse diff = nth_error versesList (Z.to_nat (d mod 10))) /\
  dailyVerse (diff + 10 * oneDay) = dailyVerse diff.
Proof.
  intros Hd.
  assert (Hday : (0 <= dayOfYear diff)%Z).
  { unfold dayOfYear. apply Z.div_pos; [assumption|reflexivity]. }
  assert (Hget : forall n, (0 <= n)%Z ->
            arrayGet versesList (Z.rem n 10)
            = nth_error versesList (Z.to_nat (n mod 10))).
  { intros n Hn. unfold arrayGet.
    rewrite Z.rem_mod_nonneg by lia.
    pose proof (Z.mod_pos_bound n 10 eq_refl) as Hb.
    destruct (n mod 10 <? 0)%Z eqn:E; [lia|reflexivity]. }
  split; [|split].
  - unfold dailyVerse. change (Z.of_nat (length versesList)) with 10%Z.
    rewrite (Hget _ Hday).
    pose proof (Z.mod_pos_bound (dayOfYear diff) 10 eq_refl) as Hb.
    destruct (nth_error versesList (Z.to_nat (dayOfYear diff mod 10)))
      as [v|] eqn:E.
    + exists v. split; [reflexivity|]. now apply nth_error_In in E.
    + apply nth_error_None in E. simpl in E. lia.
  - intros d Hd0 Hrange. unfold dailyVerse.
    change (Z.of_nat (length versesList)) with 10%Z.
    rewrite (Hget _ Hday). do 3 f_equal. unfold dayOfYear.
    symmetry. apply (Z.div_unique diff oneDay d (diff - d * oneDay)).
    + left. unfold oneDay in *. lia.
    + lia.
  - unfold dailyVerse. change (Z.of_nat (length versesList)) with 10%Z.
    assert (Hshift : dayOfYear (diff + 10 * oneDay)
                     = (dayOfYear diff + 10)%Z).
    { unfold dayOfYear. rewrite Z.div_add by (unfold oneDay; lia).
      reflexivity. }
    rewrite Hshift, (Hget _ Hday), (Hget (dayOfYear diff + 10)%Z) by lia.
    do 2 f_equal.
    replace (dayOfYear diff + 10)%Z with (dayOfYear diff + 1 * 10)%Z by lia.
    apply Z.mod_add. lia.
Qed.

(** ** The chat completion client *)
Section AssistantFacts.

Variable toLowerCase : jsstring -> jsstring.

Lemma explainError_apologises (message : jsstring) :
  includes (lit "Maaf") (explainError toLowerCase message) = true.
Proof.
  unfold explainError.
  repeat match goal with
         | |- context [if ?b then _ else _] => destruct b
         end; reflexivity.
Qed.

(** X18. The start-up test of the AI succeeds exactly when the request
    is answered by a message whose content is a non-empty text without
    the word [Maaf]: every failure of the request (a thrown error, an HTTP
    error status, an unrecognized body) and a null content make it fail,
    and so does a proper answer that happens to contain [Maaf]. *)
Theorem testGroqConnection_true_iff (reply : ApiReply) :
  testGroqConnection toLowerCase reply = true <->
  exists content,
    reply = Message (Some content) /\ content <> [] /\
    includes (lit "Maaf") content = false.
Proof.
  unfold testGroqConnection. split.
  - destruct reply as [m|st txt| |[c|]]; simpl.
    + rewrite explainError_apologises, andb_false_r. discriminate.
    + rewrite explainError_apologises, andb_false_r. discriminate.
    + discriminate.
    + intros H. apply andb_true_iff in H as [Ht Hi].
      exists c. split; [reflexivity|].
      split; [now apply truthy_nonempty|now apply negb_true_iff].
    + discriminate.
  - intros [c [-> [Hne Hi]]]. cbn [chatWithAI].
    apply truthy_nonempty in Hne. now rewrite Hne, Hi.
Qed.

(** X19. An HTTP error with status 401 is always reported as an invalid
    API key, whatever the body of the response, as long as lowercasing
    keeps the digits [401] of the message. *)
Theorem http_401_invalid_key (errorText : jsstring) :
  (forall s, includes (lit "401") s = true ->
             includes (lit "401") (toLowerCase s) = true) ->
  chatWithAI toLowerCase (HttpError 401 errorText) = Some invalidKey.
Proof.
  intros Hdigits. unfold chatWithAI, explainError.
  rewrite Hdigits; [reflexivity|].
  change (numberToString 401) with (lit "401").
  apply includes_middle.
Qed.

End AssistantFacts.

Lemma asciiLower_digits (s : jsstring) :
  includes (lit "401") s = true -> includes (lit "401") (asciiLower s) = true.
Proof.
  induction s as [|c s IH]; intros H.
  - discriminate.
  - cbn [includes] in H. apply orb_true_iff in H as [H|H].
    + apply startsWith_split in H. rewrite H. unfold asciiLower.
      rewrite map_app. apply includes_startsWith.
      change (map _ (lit "401")) with (lit "401"). apply startsWith_app.
    + change (asciiLower (c :: s))
        with ((if (N.leb 65 c && N.leb c 90)%bool then (c + 32)%N else c)
              :: asciiLower s).
      cbn [includes]. rewrite (IH H). apply orb_true_r.
Qed.

(** ** The further properties on concrete inputs *)

Lemma lines_nonempty_witness :
  lines (findOptimalFontSize sampleMeasure [lit "Hello"; lit "World"]) <> [].
Proof.
  apply (proj2 (proj2 (lines_nonempty_bounded sampleMeasure
                         [lit "Hello"; lit "World"]))).
  discriminate.
Defined.

Lemma words_are_clean_witness :
  Forall (fun w => w <> []) (splitWs (trim (lit " Hello  World "))).
Proof.
  apply (proj1 (proj2 (words_are_clean (lit " Hello  World ")))).
  reflexivity.
Defined.

Lemma split_join_witness :
  splitWs (join (lit " ") [lit "Hello"; lit "World"])
  = [lit "Hello"; lit "World"].
Proof.
  apply split_join_roundtrip.
  - discriminate.
  - repeat constructor; discriminate.
Defined.

Lemma paint_calls_witness :
  exists new,
    ops (fst (drawTextWithEmoji sampleMeasure threeParts fetchFails decodeAny
                freshCtx (lit "Hi :) you") 25 45 20))
    = ops freshCtx ++ new /\
    Forall (fun op => 25 <= opX op) new.
Proof.
  destruct (paint_calls_appended sampleMeasure threeParts fetchFails
              decodeAny freshCtx (lit "Hi :) you") 25 45 20)
    as [new [Hops [_ [_ Hx]]]].
  exists new. split; [exact Hops|]. apply Hx.
  - intros s. apply sampleMeasure_nonneg. lia.
  - lia.
Defined.

Lemma pure_text_witness :
  snd (drawTextWithEmoji sampleMeasure plainParts fetchFails decodeAny
         freshCtx (lit "Hi you") 25 45 20)
  == 25 + partsWidth sampleMeasure 20 [lit "Hi you"].
Proof.
  apply (pure_text_cursor sampleMeasure plainParts fetchFails decodeAny
           freshCtx (lit "Hi you") 25 45 20).
  repeat constructor.
Defined.

Lemma matchSrc_sound_witness :
  noQuote (lit "https://cdn.example/svg/1f600.svg").
Proof.
  apply (matchSrc_sound sampleImgPart
           (lit "https://cdn.example/svg/1f600.svg")).
  reflexivity.
Defined.

Lemma matchSrc_complete_witness :
  matchSrc (lit "<img class=emoji " ++ lit "src=" ++ [dquote] ++
            lit "https://cdn.example/svg/1f600.svg" ++ [dquote] ++ lit "/>")
  = Some (lit "https://cdn.example/svg/1f600.svg").
Proof.
  apply matchSrc_complete.
  - discriminate.
  - reflexivity.
  - reflexivity.
Defined.

(** The sticker of [Hi you]: the background, then one [fillText] of the
    single line at the left margin. *)
Lemma sent_canvas_witness :
  exists sol ctx webp y,
    createSticker sampleMeasure plainParts fetchFails decodeAny encodeAny
      (lit "Hi you")
    = StickerSent sol ctx webp /\
    ops ctx
    = [FillRect 0 0 canvasWidth canvasHeight (lit "#fff");
       FillText (lit "Hi you") margin y (BoldNarrow 120) (lit "#000")].
Proof.
  destruct (createSticker sampleMeasure plainParts fetchFails decodeAny
              encodeAny (lit "Hi you")) as [c|sol ctx webp|] eqn:E;
    [vm_compute in E; discriminate| |vm_compute in E; discriminate].
  destruct (sent_canvas_content sampleMeasure plainParts fetchFails
              decodeAny encodeAny (lit "Hi you") sol ctx webp E)
    as [Hsol [_ [Hops _]]].
  rewrite Hsol in Hops. vm_compute in Hops.
  exists sol, ctx, webp. eexists. split; [reflexivity|]. exact Hops.
Defined.

(** Replying [/mkstr] to a message makes a sticker of its text. *)
Lemma mkstr_reply_witness :
  mkstrBranch (lit "/mkstr") (Some (mkQuoted (Some (lit "Good day")) None))
  = CallCreateSticker (lit "Good day").
Proof.
  destruct (mkstr_text_choice (lit "/mkstr")
              (Some (mkQuoted (Some (lit "Good day")) None)))
    as [_ [_ Hreply]].
  destruct (Hreply (mkQuoted (Some (lit "Good day")) None) eq_refl eq_refl)
    as [Hconv _].
  apply (Hconv (lit "Good day")); [reflexivity|discriminate].
Defined.

Lemma mkstr_direct_witness :
  forallb isWhiteSpace (lit "hi you") = false /\
  Forall (fun w => w <> []) (splitWs (trim (lit "hi you"))).
Proof.
  apply (proj2 (mkstr_direct (lit "  hi you "))). reflexivity.
Defined.

Lemma msg_prompt_witness :
  exists rest,
    msgBranch true (lit "/msg why?")
              (Some (mkQuoted (Some (lit "The sky is blue")) None))
    = AskAI (lit "The sky is blue" ++ rest).
Proof.
  apply (proj2 (proj2 (msg_prompt (lit "/msg why?")
                         (Some (mkQuoted (Some (lit "The sky is blue"))
                                         None))))).
  - reflexivity.
  - discriminate.
Defined.

Lemma dailyVerse_witness :
  exists v, dailyVerse (307 * oneDay + 3600000) = Some v /\ In v versesList.
Proof.
  apply (dailyVerse_defined (307 * oneDay + 3600000)).
  unfold oneDay. lia.
Defined.

Lemma testGroqConnection_witness :
  testGroqConnection asciiLower (Message (Some (lit "OK"))) = true.
Proof.
  apply (proj2 (testGroqConnection_true_iff asciiLower
                  (Message (Some (lit "OK"))))).
  exists (lit "OK"). split; [reflexivity|]. split; [discriminate|reflexivity].
Defined.

Lemma http_401_witness :
  chatWithAI asciiLower (HttpError 401 (lit "Unauthorized"))
  = Some invalidKey.
Proof.
  apply http_401_invalid_key. exact asciiLower_digits.
Defined.

(** The verse of day 307 is the eighth of the list. *)
Example dailyVerse_307 :
  dailyVerse (307 * oneDay + 3600000) = Some (lit "Matthew 6:33").
Proof. reflexivity. Qed.

(** For a negative day count that is no multiple of ten, no verse is
    found. *)
Example dailyVerse_negative : dailyVerse (- 3 * oneDay) = None.
Proof. reflexivity. Qed.
